(** * Churn measurement and defect forecasting: a shallow embedding

    This development embeds the two scripts of the repository,
    [code_churn_measurement.py] and [defect_forecast_streamlit.py], and
    proves the properties their specification states about them.

    Conventions.
    - A Python [str] is a [string]; each [ascii] stands for the code point
      of the same number, so the strings covered are those whose code
      points are below 256.  The built-ins used by the scripts
      ([str.strip], [str.split], [str.splitlines], [str.lower], [int],
      [in], [pathlib.Path]) are written out for that range.
    - A Python [int] is a [Z]; a [dict] is a [gmap], whose equality is the
      equality of Python dicts (it ignores insertion order).
    - [pathlib.Path] is the POSIX flavour.
    - The forecasting code is written once for any arithmetic.  The
      script runs it on binary64 numbers, the primitive floats here, with
      numpy's order of summation; what is said about the size of a
      forecast is said about the values of these floats. *)

From Stdlib Require Import Ascii String ZArith QArith Qminmax Lqa Floats Uint63.
From stdpp Require Import gmap strings list fin_maps.

Local Open Scope Z_scope.
Local Open Scope string_scope.

(** ** Results of fallible code *)

Inductive exn : Type :=
  | ValueError
  | IndexError
  | RuntimeError (msg : string).

Inductive result (A : Type) : Type :=
  | Ok (a : A)
  | Raise (e : exn).
Arguments Ok {A} a.
Arguments Raise {A} e.

Definition bind {A B} (m : result A) (k : A → result B) : result B :=
  match m with
  | Ok a => k a
  | Raise e => Raise e
  end.

Notation "'try!' x ':=' m 'in' k" := (bind m (λ x, k))
  (at level 10, x name, m at level 100, k at level 200).

(** ** String built-ins *)

Module Str.

(** [sep.join(parts)] *)
Fixpoint join (sep : string) (parts : list string) : string :=
  match parts with
  | [] => ""
  | [x] => x
  | x :: rest => x +:+ sep +:+ join sep rest
  end.

(** [s.split(c)] for a one-character separator [c]. *)
Fixpoint split (c : ascii) (s : string) : list string :=
  match s with
  | "" => [""]
  | String a s' =>
      if Ascii.eqb a c then "" :: split c s'
      else match split c s' with
           | [] => [String a ""]
           | w :: ws => String a w :: ws
           end
  end.

(** [s.startswith(p)] *)
Fixpoint startswith (p s : string) : bool :=
  match p, s with
  | "", _ => true
  | String a p', String b s' => Ascii.eqb a b && startswith p' s'
  | String _ _, "" => false
  end.

(** [needle in s] *)
Fixpoint contains (needle s : string) : bool :=
  startswith needle s ||
  match s with
  | "" => false
  | String _ s' => contains needle s'
  end.

(** Code points below 256 for which [str.isspace] holds. *)
Definition isspace (a : ascii) : bool :=
  let n := N_of_ascii a in
  ((9 <=? n) && (n <=? 13) || (28 <=? n) && (n <=? 32)
   || (n =? 133) || (n =? 160))%N.

Fixpoint lstrip (s : string) : string :=
  match s with
  | "" => ""
  | String a s' => if isspace a then lstrip s' else s
  end.

(** Drops trailing white space: a character is kept when something that
    is kept follows it, or when it is not white space. *)
Fixpoint rstrip (s : string) : string :=
  match s with
  | "" => ""
  | String a s' =>
      match rstrip s' with
      | "" => if isspace a then "" else String a ""
      | r => String a r
      end
  end.

(** [s.strip()] *)
Definition strip (s : string) : string := rstrip (lstrip s).

(** [s.lower()] on code points below 256: A-Z, and the capital letters
    of Latin-1 (192-222 except the multiplication sign 215). *)
Definition lower_char (a : ascii) : ascii :=
  let n := N_of_ascii a in
  if ((65 <=? n) && (n <=? 90)
      || (192 <=? n) && (n <=? 222) && negb (n =? 215))%N
  then ascii_of_N (n + 32) else a.

Fixpoint lower (s : string) : string :=
  match s with
  | "" => ""
  | String a s' => String (lower_char a) (lower s')
  end.

(** Line boundaries of [str.splitlines] below 256, apart from the
    carriage return, which [splitlines] treats on its own. *)
Definition islinebreak (a : ascii) : bool :=
  let n := N_of_ascii a in
  ((n =? 10) || (n =? 11) || (n =? 12) || (n =? 28) || (n =? 29)
   || (n =? 30) || (n =? 133))%N.

(** [splitlines_from cur s]: [cur] is the line read so far. *)
Fixpoint splitlines_from (cur : string) (s : string) : list string :=
  match s with
  | "" => if decide (cur = "") then [] else [cur]
  | String a s' =>
      if (N_of_ascii a =? 13)%N then
        match s' with
        | String b s'' =>
            if (N_of_ascii b =? 10)%N then cur :: splitlines_from "" s''
            else cur :: splitlines_from "" s'
        | "" => [cur]
        end
      else if islinebreak a then cur :: splitlines_from "" s'
      else splitlines_from (cur +:+ String a "") s'
  end.

(** [s.splitlines()] *)
Definition splitlines (s : string) : list string := splitlines_from "" s.

End Str.


(** ** [pathlib.PurePosixPath] *)

Module Path.

(** A parsed path: the root ([""], ["/"] or ["//"]) and the components.
    The drive is always empty for the POSIX flavour. *)
Record t : Type := mk { root : string; tail : list string }.

#[global] Instance t_eq_dec : EqDecision t.
Proof. solve_decision. Defined.

(** [posixpath.splitroot]: no leading slash, exactly two leading
    slashes (kept as they are), or any other number (one slash). *)
Definition splitroot (p : string) : string * string :=
  match p with
  | String "/" (String "/" (String "/" _ as rest)) => ("/", String "/" rest)
  | String "/" (String "/" rest) => ("//", rest)
  | String "/" rest => ("/", rest)
  | _ => ("", p)
  end.

(** [Path(p)]: empty and ["."] components are dropped. *)
Definition parse (p : string) : t :=
  if decide (p = "") then mk "" []
  else
    let '(r, rel) := splitroot p in
    mk r (filter (λ x, x ≠ "" ∧ x ≠ ".") (Str.split "/" rel)).

(** [path.parent] *)
Definition parent (p : t) : t :=
  match tail p with
  | [] => p
  | _ => mk (root p) (removelast (tail p))
  end.

(** [path.as_posix()], which is [str(path)] for this flavour. *)
Definition as_posix (p : t) : string :=
  if decide (root p ≠ "") then root p +:+ Str.join "/" (tail p)
  else match tail p with
       | [] => "."
       | _ => Str.join "/" (tail p)
       end.

End Path.

(** ** The churn aggregator ([code_churn_measurement.py]) *)

(** One entry of [file_churn]: the tuple [(added, removed, file_path)]. *)
Definition churn_record : Type := Z * Z * string.

Definition rec_added (r : churn_record) : Z := r.1.1.
Definition rec_removed (r : churn_record) : Z := r.1.2.
Definition rec_path (r : churn_record) : string := r.2.

(** The inner dict of [file_metrics] and [module_metrics].  The key
    ['total_churn'] is absent until the final pass sets it. *)
Record metrics : Type := Metrics {
  added : Z;
  removed : Z;
  total_churn : option Z
}.

#[global] Instance metrics_eq_dec : EqDecision metrics.
Proof. solve_decision. Defined.

(** The factory of the [defaultdict]. *)
Definition default_metrics : metrics := Metrics 0 0 None.

(** [module = Path(path).parent.as_posix()
             if Path(path).parent != Path('.') else '.'] *)
Definition module_of (path : string) : string :=
  let parent := Path.parent (Path.parse path) in
  if decide (parent ≠ Path.parse ".") then Path.as_posix parent else ".".

(** [d[key]['added'] += a; d[key]['removed'] += r] on a [defaultdict]. *)
Definition bump (key : string) (a r : Z) (d : gmap string metrics)
  : gmap string metrics :=
  let cur := default default_metrics (d !! key) in
  <[key := Metrics (added cur + a) (removed cur + r) (total_churn cur)]> d.

(** The body of the loop over [file_churn]. *)
Definition aggregate_step (acc : gmap string metrics * gmap string metrics)
    (r : churn_record) : gmap string metrics * gmap string metrics :=
  let '(a, rm, path) := r in
  (bump path a rm acc.1, bump (module_of path) a rm acc.2).

(** [metrics['total_churn'] = metrics['added'] + metrics['removed']] *)
Definition set_total (m : metrics) : metrics :=
  Metrics (added m) (removed m) (Some (added m + removed m)).

Definition aggregate_churn (file_churn : list churn_record)
  : gmap string metrics * gmap string metrics :=
  let acc := foldl aggregate_step (∅, ∅) file_churn in
  (set_total <$> acc.1, set_total <$> acc.2).

(** *** Quantities the aggregator's properties are stated with *)

(** The sum of [f] over a list. *)
Definition sum_with {A} (f : A → Z) (l : list A) : Z :=
  foldr (λ x acc, f x + acc) 0 l.

(** The sum of [f] over the values of a dict. *)
Definition map_sum (f : metrics → Z) (d : gmap string metrics) : Z :=
  map_fold (λ _ v acc, f v + acc) 0 d.

(** The value of ['total_churn'], 0 while the key is absent. *)
Definition total (m : metrics) : Z := default 0 (total_churn m).

Definition rec_churn (r : churn_record) : Z := rec_added r + rec_removed r.

(** The records whose path is sent to [k] by [key]. *)
Definition records_of (key : string → string) (k : string)
    (l : list churn_record) : list churn_record :=
  filter (λ r, key (rec_path r) = k) l.

(** The entries of [file_metrics] whose parent directory is [k]. *)
Definition files_in (k : string) (file_metrics : gmap string metrics)
  : gmap string metrics :=
  filter (λ kv, module_of kv.1 = k) file_metrics.

(** Merging two shards by summing corresponding fields. *)
Definition merge_metrics (m1 m2 : metrics) : metrics :=
  Metrics (added m1 + added m2) (removed m1 + removed m2)
          (match total_churn m1, total_churn m2 with
           | Some t1, Some t2 => Some (t1 + t2)
           | _, _ => None
           end).

Definition merge_shards (d1 d2 : gmap string metrics) : gmap string metrics :=
  union_with (λ m1 m2, Some (merge_metrics m1 m2)) d1 d2.

(** The loop seen on one of its two dicts: [key] is the identity for
    [file_metrics] and [module_of] for [module_metrics]. *)
Definition tally (key : string → string) (l : list churn_record)
    (d : gmap string metrics) : gmap string metrics :=
  foldl (λ d r, bump (key (rec_path r)) (rec_added r) (rec_removed r) d) d l.

(** *** Paths written as components *)

(** [c in s] for a character [c]. *)
Fixpoint has_char (c : ascii) (s : string) : bool :=
  match s with
  | "" => false
  | String a s' => Ascii.eqb a c || has_char c s'
  end.

(** A name of a file or directory: not empty, not ["."], without slash. *)
Definition component (c : string) : Prop :=
  c ≠ "" ∧ c ≠ "." ∧ has_char "/" c = false.

(** ** The numstat parser ([code_churn_measurement.py]) *)

Definition TAB : ascii := "009"%char.

Definition is_digit (a : ascii) : bool :=
  let n := N_of_ascii a in ((48 <=? n) && (n <=? 57))%N.

Definition digit_value (a : ascii) : Z := Z.of_N (N_of_ascii a) - 48.

(** The digits of an integer literal: single underscores are allowed
    between digits.  [after_digit] tells whether the previous character
    was a digit; the result is the value and the number of digits. *)
Fixpoint int_body (acc : Z) (ndigits : nat) (after_digit : bool) (s : string)
  : option (Z * nat) :=
  match s with
  | "" => if after_digit then Some (acc, ndigits) else None
  | String a s' =>
      if is_digit a then
        int_body (acc * 10 + digit_value a) (S ndigits) true s'
      else if Ascii.eqb a "_" then
        if after_digit then int_body acc ndigits false s' else None
      else None
  end.

(** CPython's default [sys.int_max_str_digits]. *)
Definition int_max_str_digits : nat := 4300.

(** The white space that [int] skips around a literal, among the code
    points below 256: tab to carriage return, the space, and the two
    spaces of Latin-1.  The separators 28 to 31, which [str.strip]
    removes, are not skipped. *)
Definition int_isspace (a : ascii) : bool :=
  let n := N_of_ascii a in
  ((9 <=? n) && (n <=? 13) || (n =? 32) || (n =? 133) || (n =? 160))%N.

Fixpoint int_skip_leading (s : string) : string :=
  match s with
  | "" => ""
  | String a s' => if int_isspace a then int_skip_leading s' else s
  end.

Fixpoint int_skip_trailing (s : string) : string :=
  match s with
  | "" => ""
  | String a s' =>
      match int_skip_trailing s' with
      | "" => if int_isspace a then "" else String a ""
      | r => String a r
      end
  end.

(** [int(s)]: surrounding white space, an optional sign, decimal digits.
    Whatever else is a [ValueError], as is a literal with too many
    digits. *)
Definition py_int (s : string) : result Z :=
  let s := int_skip_trailing (int_skip_leading s) in
  let '(sign, body) :=
    match s with
    | String "+" b => (1, b)
    | String "-" b => (-1, b)
    | _ => (1, s)
    end in
  match int_body 0 0 false body with
  | Some (v, n) =>
      if decide (int_max_str_digits < n)%nat then Raise ValueError
      else Ok (sign * v)
  | None => Raise ValueError
  end.

(** [try: body except ValueError: handler] *)
Definition except_ValueError {A} (body : result A) (handler : result A)
  : result A :=
  match body with
  | Raise ValueError => handler
  | _ => body
  end.

(** One turn of the loop over [lines]; [continue] leaves [file_churn] as
    it is.  Unpacking [parts] into three names raises [ValueError] when
    their number is not three. *)
Definition parse_line (file_churn : list churn_record) (line : string)
  : result (list churn_record) :=
  let line := Str.strip line in
  if bool_decide (line = "") || Str.startswith "commit" line then Ok file_churn
  else
    let parts := Str.split TAB line in
    if decide (length parts ≠ 3%nat) then Ok file_churn
    else
      match parts with
      | [added; removed; file_path] =>
          except_ValueError
            (try! added := py_int added in
             try! removed := py_int removed in
             Ok (file_churn ++ [(added, removed, file_path)])%list)
            (Ok file_churn)
      | _ => Raise ValueError
      end.

Fixpoint parse_lines (file_churn : list churn_record) (lines : list string)
  : result (list churn_record) :=
  match lines with
  | [] => Ok file_churn
  | line :: rest =>
      try! file_churn := parse_line file_churn line in
      parse_lines file_churn rest
  end.

Definition parse_git_numstat (lines : list string)
  : result (list churn_record) :=
  parse_lines [] lines.

(** *** The lines the parser is said to accept *)

(** The record of a line, following the specification: the stripped line
    is not empty, does not start with the marker of a commit header, has
    exactly three fields between tabs, and the first two are integers. *)
Definition accepted (line : string) (r : churn_record) : Prop :=
  let s := Str.strip line in
  s ≠ "" ∧ Str.startswith "commit" s = false
  ∧ ∃ f1 f2 : string,
      s = f1 +:+ String TAB (f2 +:+ String TAB (rec_path r))
      ∧ has_char TAB f1 = false ∧ has_char TAB f2 = false
      ∧ has_char TAB (rec_path r) = false
      ∧ py_int f1 = Ok (rec_added r) ∧ py_int f2 = Ok (rec_removed r).

(** The same as a function: the record of an accepted line, [None] for a
    line that is skipped. *)
Definition record_of_line (line : string) : option churn_record :=
  let s := Str.strip line in
  if decide (s = "") then None
  else if Str.startswith "commit" s then None
  else
    match Str.split TAB s with
    | [f1; f2; path] =>
        match py_int f1, py_int f2 with
        | Ok a, Ok r => Some (a, r, path)
        | _, _ => None
        end
    | _ => None
    end.

(** ** Log extraction and the churn run ([code_churn_measurement.py]) *)

(** What [subprocess.run(cmd, capture_output=True, text=True)] returns. *)
Record CompletedProcess : Type := {
  returncode : Z;
  stdout : string;
  stderr : string
}.

Definition git_log_cmd (repo_path : string) : list string :=
  ["git"; "-C"; repo_path; "log"; "--numstat"; "--pretty=format:commit %H"].

(** [subprocess_run] is the outside world: the completed process of a
    command line. *)
Definition run_git_log (subprocess_run : list string → CompletedProcess)
    (repo_path : string) : result (list string) :=
  let cmd := git_log_cmd repo_path in
  let result := subprocess_run cmd in
  if decide (returncode result ≠ 0) then
    Raise (RuntimeError ("Git command failed: " +:+ stderr result))
  else Ok (Str.splitlines (stdout result)).

(** [main] up to the aggregation; what follows it only writes the
    metrics out and plots them. *)
Definition main (subprocess_run : list string → CompletedProcess)
    (repo : string)
  : result (gmap string metrics * gmap string metrics) :=
  try! lines := run_git_log subprocess_run repo in
  try! file_churn_list := parse_git_numstat lines in
  Ok (aggregate_churn file_churn_list).

(** ** Column detection ([defect_forecast_streamlit.py]) *)

(** [df.rename(columns={old: new}, inplace=True)] on the column labels. *)
Definition rename (old new : string) (columns : list string) : list string :=
  map (λ c, if decide (c = old) then new else c) columns.

(** ["token" in c.lower()] *)
Definition mentions (token : string) (c : string) : bool :=
  Str.contains token (Str.lower c).

(** The two messages after which [st.stop()] ends the session. *)
Inductive stop : Type :=
  | NoDefectColumn
  | NoWeekColumn.

(** The chosen defect column, the chosen week column and the column
    labels after the two renamings. *)
Definition detect_columns (columns : list string)
  : stop + (string * string * list string) :=
  let possible_cols := filter (λ c, mentions "defect" c) columns in
  match possible_cols with
  | [] => inl NoDefectColumn
  | defect_col :: _ =>
      let columns := rename defect_col "defects_reported" columns in
      let possible_weeks := filter (λ c, mentions "week" c) columns in
      match possible_weeks with
      | [] => inl NoWeekColumn
      | week_col :: _ =>
          inr (defect_col, week_col, rename week_col "week_start" columns)
      end
  end.

(** *** What the detection is said to select *)

(** The first column, in the order of the input, whose lowercased name
    contains [token]. *)
Definition first_match (token : string) (columns : list string)
  : option string :=
  head (filter (λ c, mentions token c) columns).

(** The detection as the specification words it: both columns are first
    matches among the columns of the input. *)
Definition selects_first_matches (columns : list string) : Prop :=
  ∀ defect_col week_col columns',
    detect_columns columns = inr (defect_col, week_col, columns') →
    first_match "defect" columns = Some defect_col
    ∧ first_match "week" columns = Some week_col.

(** ** The forecaster ([defect_forecast_streamlit.py]) *)

(** The arithmetic the forecasting formulas are written with.  The script
    runs them on binary64 numbers ([float_arith]); what holds of the
    loops whatever the arithmetic is is proved once for every instance,
    and the rationals are a second one to evaluate examples on. *)
Class Arith (A : Type) : Type := {
  zero : A;
  one : A;
  add : A → A → A;
  sub : A → A → A;
  mul : A → A → A;
  div : A → A → A;
  of_nat : nat → A
}.

#[global] Instance Q_arith : Arith Q := {
  zero := 0%Q;
  one := 1%Q;
  add := Qplus;
  sub := Qminus;
  mul := Qmult;
  div := Qdiv;
  of_nat n := inject_Z (Z.of_nat n)
}.

#[global] Instance float_arith : Arith float := {
  zero := 0%float;
  one := 1%float;
  add := PrimFloat.add;
  sub := PrimFloat.sub;
  mul := PrimFloat.mul;
  div := PrimFloat.div;
  of_nat n := PrimFloat.of_uint63 (Uint63.of_Z (Z.of_nat n))
}.

Section Forecaster.
Context {A : Type} `{Arith A}.

(** The 8 running sums of numpy's summation: each turn adds the next 8
    numbers of [rest] to them, place by place. *)
Fixpoint sum_lanes (turns : nat) (r rest : list A) : list A :=
  match turns with
  | O => r
  | S turns' => sum_lanes turns' (zip_with add r (take 8 rest)) (drop 8 rest)
  end.

(** The sum of 8 to 128 numbers: 8 running sums over the positions below
    the last multiple of 8, added in pairs, then the numbers that are
    left, one by one. *)
Definition sum_block (a : list A) : A :=
  let n := length a in
  let res :=
    match sum_lanes (n / 8 - 1) (take 8 a) (drop 8 a) with
    | [r0; r1; r2; r3; r4; r5; r6; r7] =>
        add (add (add r0 r1) (add r2 r3)) (add (add r4 r5) (add r6 r7))
    | _ => zero
    end in
  foldl add res (drop (n - n mod 8) a).

(** numpy's pairwise summation: fewer than 8 numbers are added from the
    left, up to 128 numbers are one block, and a longer array is cut in
    two near its middle, at a multiple of 8.  [fuel] bounds the depth of
    the halving; the length of the array is enough. *)
Fixpoint pairwise_sum (fuel : nat) (a : list A) : A :=
  let n := length a in
  if decide (n < 8)%nat then foldl add zero a
  else if decide (n ≤ 128)%nat then sum_block a
  else
    match fuel with
    | O => zero
    | S fuel' =>
        let n2 := (n / 2 - (n / 2) mod 8)%nat in
        add (pairwise_sum fuel' (take n2 a)) (pairwise_sum fuel' (drop n2 a))
    end.

(** [np.sum(l)]: the pairwise sum, added to the initial 0 of the
    reduction (which changes nothing below 8 numbers). *)
Definition np_sum (l : list A) : A :=
  if decide (length l < 8)%nat then foldl add zero l
  else add zero (pairwise_sum (length l) l).

(** [np.mean(l)] *)
Definition np_mean (l : list A) : A := div (np_sum l) (of_nat (length l)).

(** [data[-window:]]: the last [window] elements, all of them when there
    are fewer, and all of them when [window] is 0 (then [-window] is
    0). *)
Definition slice_last (window : nat) (data : list A) : list A :=
  if decide (window = 0%nat) then data
  else drop (length data - window) data.

(** [forecast = [y[-1]] * horizon] *)
Definition naive (horizon : nat) (y : list A) : result (list A) :=
  match last y with
  | Some v => Ok (replicate horizon v)
  | None => Raise IndexError
  end.

(** [np.mean(data[-window:]) if len(data) >= window else np.mean(data)] *)
Definition moving_average_step (window : nat) (data : list A) : A :=
  if decide (window ≤ length data)%nat then np_mean (slice_last window data)
  else np_mean data.

(** The loop of the [moving_average] branch: the pair of [data] and
    [forecast] after [horizon] turns. *)
Fixpoint moving_average_loop (window horizon : nat) (data forecast : list A)
  : list A * list A :=
  match horizon with
  | O => (data, forecast)
  | S horizon' =>
      let ma := moving_average_step window data in
      moving_average_loop window horizon'
        (data ++ [ma])%list (forecast ++ [ma])%list
  end.

Definition moving_average (window horizon : nat) (y : list A) : list A :=
  (moving_average_loop window horizon y []).2.

(** [s = alpha * val + (1 - alpha) * s] *)
Definition ewma_update (alpha : A) (s val : A) : A :=
  add (mul alpha val) (mul (sub one alpha) s).

(** The loop of the [ewma] branch; [data[0]] raises on an empty list. *)
Fixpoint ewma_loop (alpha : A) (horizon : nat) (data forecast : list A)
  : result (list A) :=
  match horizon with
  | O => Ok forecast
  | S horizon' =>
      match data with
      | [] => Raise IndexError
      | first :: rest =>
          let s := foldl (ewma_update alpha) first rest in
          ewma_loop alpha horizon' (data ++ [s])%list (forecast ++ [s])%list
      end
  end.

Definition ewma (alpha : A) (horizon : nat) (y : list A) : result (list A) :=
  ewma_loop alpha horizon y [].

(** *** What the strategies are said to compute *)

(** The mean of the last [window] elements, or of all the elements when
    fewer than [window] exist. *)
Definition window_mean (window : nat) (series : list A) : A :=
  if decide (length series < window)%nat then np_mean series
  else np_mean (reverse (take window (reverse series))).

(** The incremental EWMA: one running state, updated by each value it
    reads; each forecast is the state, which then reads it. *)
Fixpoint ewma_emit (alpha : A) (horizon : nat) (s : A) : list A :=
  match horizon with
  | O => []
  | S horizon' => s :: ewma_emit alpha horizon' (ewma_update alpha s s)
  end.

Definition ewma_incremental (alpha : A) (horizon : nat) (y : list A)
  : result (list A) :=
  match y with
  | [] => Raise IndexError
  | first :: rest =>
      Ok (ewma_emit alpha horizon (foldl (ewma_update alpha) first rest))
  end.

End Forecaster.

(** The least and the greatest value of a series (0 for an empty one). *)
Definition series_min (y : list Q) : Q :=
  match y with
  | [] => 0%Q
  | v :: rest => foldl Qmin v rest
  end.

Definition series_max (y : list Q) : Q :=
  match y with
  | [] => 0%Q
  | v :: rest => foldl Qmax v rest
  end.

Section ForecasterLoops.
Context {A : Type} `{Arith A}.

(** The values the [moving_average] loop appends, one by one. *)
Fixpoint moving_average_values (window horizon : nat) (data : list A)
  : list A :=
  match horizon with
  | O => []
  | S horizon' =>
      let ma := moving_average_step window data in
      ma :: moving_average_values window horizon' (data ++ [ma])%list
  end.

End ForecasterLoops.

(** [v] lies between [lo] and [hi]. *)
Definition within (lo hi : Q) (v : Q) : Prop := (lo <= v)%Q ∧ (v <= hi)%Q.

(** ** The dicts in iteration order, and the two charts
       ([code_churn_measurement.py]) *)

(** A Python dict iterates in the order in which its keys were first
    inserted: here a dict is the list of its items in that order. *)
Definition items : Type := list (string * metrics).

(** [d[key]['added'] += a; d[key]['removed'] += r] on a [defaultdict]:
    the entry is updated where it is, a new key goes last. *)
Fixpoint bump_item (key : string) (a r : Z) (d : items) : items :=
  match d with
  | [] =>
      [(key, Metrics (added default_metrics + a) (removed default_metrics + r)
                     (total_churn default_metrics))]
  | (k, m) :: rest =>
      if decide (k = key)
      then (k, Metrics (added m + a) (removed m + r) (total_churn m)) :: rest
      else (k, m) :: bump_item key a r rest
  end.

Definition aggregate_step_items (acc : items * items) (r : churn_record)
  : items * items :=
  let '(a, rm, path) := r in
  (bump_item path a rm acc.1, bump_item (module_of path) a rm acc.2).

(** [aggregate_churn], keeping the order of the items. *)
Definition aggregate_churn_items (file_churn : list churn_record)
  : items * items :=
  let acc := foldl aggregate_step_items ([], []) file_churn in
  (prod_map id set_total <$> acc.1, prod_map id set_total <$> acc.2).

(** [x[1]['total_churn']], the sort key of both charts.  The key is set
    in every entry that [aggregate_churn] returns; an entry without it,
    which the script would refuse, counts as 0 here. *)
Definition churn_key (x : string * metrics) : Z := total x.2.

(** [sorted(d.items(), key=..., reverse=True)]: the sort is stable, also
    with [reverse=True], so items with the same key keep their order. *)
Fixpoint insert_desc (x : string * metrics) (sorted : items) : items :=
  match sorted with
  | [] => [x]
  | y :: rest =>
      if decide (churn_key x < churn_key y) then y :: insert_desc x rest
      else x :: y :: rest
  end.

Definition sorted_desc (d : items) : items := foldr insert_desc [] d.

(** What [plot_top_files] hands to [plt.barh]: the names and the values of
    the [top_n] first sorted items, both reversed. *)
Definition plot_top_files (file_metrics : items) (top_n : nat)
  : list string * list Z :=
  let sorted_files := take top_n (sorted_desc file_metrics) in
  let files := fst <$> sorted_files in
  let churn_values := churn_key <$> sorted_files in
  (reverse files, reverse churn_values).

(** What [plot_modules] hands to [plt.bar]. *)
Definition plot_modules (module_metrics : items) : list string * list Z :=
  let sorted_modules := sorted_desc module_metrics in
  let modules := fst <$> sorted_modules in
  let churn_values := churn_key <$> sorted_modules in
  (modules, churn_values).

(** The order of first appearance of the keys of the records. *)
Fixpoint first_seen (seen : list string) (keys : list string) : list string :=
  match keys with
  | [] => []
  | k :: rest =>
      if decide (k ∈ seen) then first_seen seen rest
      else k :: first_seen (k :: seen) rest
  end.

(** The loop of [aggregate_churn_items] seen on one of its two dicts. *)
Definition tally_items (key : string → string) (l : list churn_record)
    (d : items) : items :=
  foldl (λ d r, bump_item (key (rec_path r)) (rec_added r) (rec_removed r) d)
        d l.

(** Items in descending order of their sort key. *)
Definition desc (x y : string * metrics) : Prop :=
  (churn_key y ≤ churn_key x)%Z.

(** Every element is related to all the elements after it. *)
Fixpoint sorted_by {A} (R : A → A → Prop) (l : list A) : Prop :=
  match l with
  | [] => True
  | x :: rest => Forall (R x) rest ∧ sorted_by R rest
  end.

(** Records as the log of a repository gives them: no negative count. *)
Definition nonneg (r : churn_record) : Prop :=
  (0 ≤ rec_added r)%Z ∧ (0 ≤ rec_removed r)%Z.

(** ** Binary64 numbers and their values *)

From Stdlib Require Import Qpower Qround.

(** The script computes with binary64 numbers, which are the primitive
    floats.  A finite one has a rational value, read off its sign,
    mantissa and exponent; properties of order are stated on values. *)
Definition bpow (e : Z) : Q := (2 ^ e)%Q.

Definition SF2Q (x : spec_float) : Q :=
  match x with
  | S754_finite s m e =>
      ((if s then - inject_Z (Z.pos m) else inject_Z (Z.pos m)) * bpow e)%Q
  | _ => 0%Q
  end.

Definition SF_finite (x : spec_float) : bool :=
  match x with
  | S754_zero _ | S754_finite _ _ _ => true
  | _ => false
  end.

(** The value of a finite float (0 for an infinity and for NaN, which
    [finite] tells apart). *)
Definition F2Q (x : float) : Q := SF2Q (Prim2SF x).

Definition finite (x : float) : bool := SF_finite (Prim2SF x).

(** A finite float between two rationals. *)
Definition between (lo hi : Q) (x : float) : Prop :=
  finite x = true ∧ (lo <= F2Q x)%Q ∧ (F2Q x <= hi)%Q.

(** *** The rounding of the format

    The operations on floats are specified by [SpecFloat]: the exact
    result is held in a record of a mantissa and two bits, shifted to the
    exponent of the format and rounded to nearest, ties to even. *)

(** The record [mrs] at the exponent [e] holds the number [v]: its
    mantissa is the whole part of [v] in units of [2 ^ e], and its two
    bits are clear when nothing is left. *)
Definition holds (mrs : shr_record) (e : Z) (v : Q) : Prop :=
  (0 ≤ shr_m mrs)%Z
  ∧ (inject_Z (shr_m mrs) * bpow e <= v)%Q
  ∧ (v < inject_Z (shr_m mrs + 1) * bpow e)%Q
  ∧ ((v == inject_Z (shr_m mrs) * bpow e)%Q →
     shr_r mrs = false ∧ shr_s mrs = false).

(** The exponent [e] is the one the format gives to the numbers as large
    as the one held: the least exponent, or a mantissa of full width. *)
Definition coarse (prec emax : Z) (mrs : shr_record) (e : Z) : Prop :=
  e = SpecFloat.emin prec emax
  ∨ ((SpecFloat.emin prec emax < e)%Z
     ∧ (bpow (e + prec - 1) <= inject_Z (shr_m mrs) * bpow e)%Q).

(** A number of the format that is not negative: a mantissa below
    [2 ^ prec] at an exponent of the format. *)
Definition representable (prec emax : Z) (x : Q) : Prop :=
  ∃ K e, (x == inject_Z K * bpow e)%Q
         ∧ (0 ≤ K < 2 ^ prec)%Z
         ∧ (SpecFloat.emin prec emax ≤ e ≤ emax - prec)%Z.

(** A number of the format, of either sign. *)
Definition in_format (prec emax : Z) (x : Q) : Prop :=
  representable prec emax x ∨ representable prec emax (- x)%Q.

(** What a rounding returns when the number rounded lies between two
    numbers of the format: a zero or a finite number with the sign given,
    between the same two numbers. *)
Definition rounded_between (sx : bool) (L H : Q) (r : spec_float) : Prop :=
  match r with
  | S754_zero s => s = sx ∧ (L <= 0)%Q
  | S754_finite s m e =>
      s = sx ∧ (L <= inject_Z (Z.pos m) * bpow e)%Q
      ∧ (inject_Z (Z.pos m) * bpow e <= H)%Q
  | _ => False
  end.

(** A finite number between two bounds. *)
Definition SF_between (lo hi : Q) (r : spec_float) : Prop :=
  SF_finite r = true ∧ (lo <= SF2Q r)%Q ∧ (SF2Q r <= hi)%Q.

(** A rational that binary64 has: [K * 2 ^ e] with a mantissa of at most
    53 bits and an exponent from -1074 to 971. *)
Definition binary64 (x : Q) : Prop := in_format prec emax x.

(** The sum of [j] numbers between [lo] and [hi] lies between [j] times
    the one and [j] times the other. *)
Definition between_times (lo hi : Q) (j : nat) (x : float) : Prop :=
  between (inject_Z (Z.of_nat j) * lo)%Q (inject_Z (Z.of_nat j) * hi)%Q x.

(** ** The forecast table ([defect_forecast_streamlit.py]) *)

(** [np.round(v)]: the nearest whole number, and the even one of the two
    when [v] lies halfway between them. *)
Definition round_half_even (v : Q) : Z :=
  let f := Qfloor v in
  match (v - inject_Z f ?= 1 # 2)%Q with
  | Lt => f
  | Gt => f + 1
  | Eq => if Z.even f then f else f + 1
  end.

(** [np.round(v).astype(int)] for a binary64 number [v], as the branches
    that compute means or fits produce them.  The rounded number is
    converted to numpy's default integer, taken to be the 64-bit one.
    For NaN, an infinity or a number outside the range of these integers
    the conversion is the platform's and numpy does not fix its result:
    the entry is then left open ([None]). *)
Definition np_round_astype_int (v : float) : option Z :=
  if finite v then
    let z := round_half_even (F2Q v) in
    if decide (- 2 ^ 63 ≤ z < 2 ^ 63)%Z then Some z else None
  else None.

(** The column [forecast_defects]. *)
Definition forecast_defects (forecast : list float) : list (option Z) :=
  np_round_astype_int <$> forecast.

(** A date without time of day is its day number, as [date.toordinal()]
    counts it: day 1 is a Monday.  [weekday] is 0 for Monday and 6 for
    Sunday. *)
Definition weekday (day : Z) : Z := (day + 6) mod 7.

(** The weekly frequency ["W"] is anchored on Sundays: a date that is not
    a Sunday is rolled forward to the next one. *)
Definition rollforward_sunday (day : Z) : Z := day + (6 - weekday day).

(** [pd.date_range(start=week_start.iloc[-1] + pd.Timedelta(weeks=1),
                   periods=horizon, freq="W")]; [iloc[-1]] raises on an
    empty column. *)
Definition future_weeks (week_start : list Z) (horizon : nat)
  : result (list Z) :=
  match last week_start with
  | None => Raise IndexError
  | Some last_week =>
      let start := rollforward_sunday (last_week + 7) in
      Ok ((λ i : nat, start + 7 * Z.of_nat i) <$> seq 0 horizon)
  end.

(** * Properties *)

(** ** Sums *)

Lemma sum_with_app {A} (f : A → Z) (l k : list A) :
  sum_with f (l ++ k) = sum_with f l + sum_with f k.
Proof. induction l as [|x l IH]; simpl; [done | rewrite IH; lia]. Qed.

Lemma sum_with_perm {A} (f : A → Z) (l k : list A) :
  l ≡ₚ k → sum_with f l = sum_with f k.
Proof. induction 1; simpl; lia. Qed.

Lemma sum_with_plus {A} (f g : A → Z) (l : list A) :
  sum_with (λ x, f x + g x) l = sum_with f l + sum_with g l.
Proof. induction l as [|x l IH]; simpl; lia. Qed.

Lemma map_sum_empty f : map_sum f ∅ = 0.
Proof. apply map_fold_empty. Qed.

Lemma map_sum_insert_None f k v (d : gmap string metrics) :
  d !! k = None → map_sum f (<[k:=v]> d) = f v + map_sum f d.
Proof.
  intros Hk. unfold map_sum.
  rewrite map_fold_insert_L; [done | intros; lia | done].
Qed.

Lemma map_sum_delete f k old (d : gmap string metrics) :
  d !! k = Some old → map_sum f d = f old + map_sum f (delete k d).
Proof.
  intros Hk. unfold map_sum.
  erewrite map_fold_delete_L; [done | intros; lia | done].
Qed.

Lemma map_sum_insert_Some f k v old (d : gmap string metrics) :
  d !! k = Some old → map_sum f (<[k:=v]> d) = map_sum f d + f v - f old.
Proof.
  intros Hk. rewrite (map_sum_delete f k old d Hk).
  rewrite <- insert_delete_eq.
  rewrite map_sum_insert_None by apply lookup_delete_eq. lia.
Qed.

Lemma map_sum_ext f g (d : gmap string metrics) :
  (∀ m, f m = g m) → map_sum f d = map_sum g d.
Proof.
  intros Hfg. induction d as [|k v d Hk IH] using map_ind.
  - by rewrite !map_sum_empty.
  - rewrite !map_sum_insert_None by done. by rewrite IH, Hfg.
Qed.

Lemma map_sum_plus f g (d : gmap string metrics) :
  map_sum (λ m, f m + g m) d = map_sum f d + map_sum g d.
Proof.
  induction d as [|k v d Hk IH] using map_ind.
  - by rewrite !map_sum_empty.
  - rewrite !map_sum_insert_None by done. lia.
Qed.

Lemma map_sum_fmap f g (d : gmap string metrics) :
  map_sum f (g <$> d) = map_sum (λ m, f (g m)) d.
Proof. unfold map_sum. by rewrite map_fold_fmap. Qed.

(** ** The aggregation loop *)

Lemma foldl_aggregate_step l d1 d2 :
  foldl aggregate_step (d1, d2) l = (tally id l d1, tally module_of l d2).
Proof.
  revert d1 d2. induction l as [|[[a r] p] l IH]; intros d1 d2; [done|].
  simpl. by rewrite IH.
Qed.

Lemma aggregate_churn_unfold l :
  aggregate_churn l
  = (set_total <$> tally id l ∅, set_total <$> tally module_of l ∅).
Proof. unfold aggregate_churn. by rewrite foldl_aggregate_step. Qed.

Lemma tally_cons key r l d :
  tally key (r :: l) d
  = tally key l (bump (key (rec_path r)) (rec_added r) (rec_removed r) d).
Proof. done. Qed.

Lemma bump_lookup_eq k a r (d : gmap string metrics) :
  bump k a r d !! k
  = Some (Metrics (added (default default_metrics (d !! k)) + a)
                  (removed (default default_metrics (d !! k)) + r)
                  (total_churn (default default_metrics (d !! k)))).
Proof. unfold bump. by rewrite lookup_insert_eq. Qed.

Lemma bump_lookup_ne k k' a r (d : gmap string metrics) :
  k ≠ k' → bump k a r d !! k' = d !! k'.
Proof. intros. unfold bump. by rewrite lookup_insert_ne. Qed.

(** What the loop leaves under a key: nothing new when no record is sent
    to it, and otherwise the previous counts plus the sums of the records
    sent to it. *)
Lemma tally_lookup key l d k :
  tally key l d !! k
  = if decide (records_of key k l = []) then d !! k
    else
      let cur := default default_metrics (d !! k) in
      Some (Metrics (added cur + sum_with rec_added (records_of key k l))
                    (removed cur + sum_with rec_removed (records_of key k l))
                    (total_churn cur)).
Proof.
  revert d. induction l as [|r l IH]; intros d; [done|].
  rewrite tally_cons, IH. unfold records_of in *.
  destruct (decide (key (rec_path r) = k)) as [Heq|Hne].
  - rewrite filter_cons_True by done. subst k. rewrite bump_lookup_eq.
    rewrite (decide_False (P := _ :: _ = [])) by done. simpl.
    case_decide as Hnil.
    + rewrite Hnil. simpl. do 2 f_equal; lia.
    + do 2 f_equal; lia.
  - rewrite filter_cons_False by done. rewrite bump_lookup_ne by done.
    done.
Qed.

Lemma tally_lookup_empty key l k :
  tally key l ∅ !! k
  = if decide (records_of key k l = []) then None
    else Some (Metrics (sum_with rec_added (records_of key k l))
                       (sum_with rec_removed (records_of key k l)) None).
Proof. rewrite tally_lookup, lookup_empty. by case_decide. Qed.

Lemma records_of_nil_iff key k l :
  records_of key k l = [] ↔ ∀ r, r ∈ l → key (rec_path r) ≠ k.
Proof.
  unfold records_of. split.
  - intros Hnil r Hr Hk.
    assert (r ∈ filter (λ r, key (rec_path r) = k) l) as Hin
      by (apply list_elem_of_filter; done).
    rewrite Hnil in Hin. by apply not_elem_of_nil in Hin.
  - intros Hall. induction l as [|r l IH]; [done|].
    rewrite filter_cons_False by (apply Hall; left).
    apply IH. intros r' Hr'. apply Hall. by right.
Qed.

Lemma map_sum_bump_added k a r d :
  map_sum added (bump k a r d) = map_sum added d + a.
Proof.
  unfold bump. destruct (d !! k) as [old|] eqn:Hk; simpl.
  - erewrite map_sum_insert_Some by done. simpl. lia.
  - rewrite map_sum_insert_None by done. simpl. lia.
Qed.

Lemma map_sum_bump_removed k a r d :
  map_sum removed (bump k a r d) = map_sum removed d + r.
Proof.
  unfold bump. destruct (d !! k) as [old|] eqn:Hk; simpl.
  - erewrite map_sum_insert_Some by done. simpl. lia.
  - rewrite map_sum_insert_None by done. simpl. lia.
Qed.

Lemma map_sum_tally_added key l d :
  map_sum added (tally key l d) = map_sum added d + sum_with rec_added l.
Proof.
  revert d. induction l as [|r l IH]; intros d; [simpl; lia|].
  rewrite tally_cons, IH, map_sum_bump_added. simpl. lia.
Qed.

Lemma map_sum_tally_removed key l d :
  map_sum removed (tally key l d) = map_sum removed d + sum_with rec_removed l.
Proof.
  revert d. induction l as [|r l IH]; intros d; [simpl; lia|].
  rewrite tally_cons, IH, map_sum_bump_removed. simpl. lia.
Qed.

Lemma map_sum_total_set_total d :
  map_sum total (set_total <$> d) = map_sum added d + map_sum removed d.
Proof. by rewrite map_sum_fmap, <- map_sum_plus. Qed.

Lemma map_sum_total_tally key l :
  map_sum total (set_total <$> tally key l ∅) = sum_with rec_churn l.
Proof.
  rewrite map_sum_total_set_total, map_sum_tally_added, map_sum_tally_removed.
  rewrite !map_sum_empty. unfold rec_churn. rewrite sum_with_plus. lia.
Qed.

Lemma records_of_id_module p k l :
  records_of id p (records_of module_of k l)
  = if decide (module_of p = k) then records_of id p l else [].
Proof.
  unfold records_of. induction l as [|r l IH]; [by case_decide|].
  destruct (decide (module_of (rec_path r) = k)) as [Hk|Hk].
  - rewrite (filter_cons_True (λ r, module_of (rec_path r) = k)) by done.
    destruct (decide (id (rec_path r) = p)) as [Hp|Hp].
    + rewrite !(filter_cons_True (λ r, id (rec_path r) = p)) by done.
      rewrite IH. simpl in Hp. subst p. by rewrite !decide_True by done.
    + rewrite !(filter_cons_False (λ r, id (rec_path r) = p)) by done.
      apply IH.
  - rewrite (filter_cons_False (λ r, module_of (rec_path r) = k)) by done.
    rewrite IH. case_decide as Hpk; [|done].
    rewrite filter_cons_False; [done|]. simpl. congruence.
Qed.

(** The file entries of one module are the aggregation of the records of
    that module. *)
Lemma files_in_tally k l :
  files_in k (set_total <$> tally id l ∅)
  = set_total <$> tally id (records_of module_of k l) ∅.
Proof.
  apply map_eq. intros p. unfold files_in.
  rewrite map_lookup_filter, !lookup_fmap, !tally_lookup_empty.
  rewrite records_of_id_module. simpl.
  destruct (decide (module_of p = k)) as [Hk|Hk].
  - case_decide; simpl; [done|]. by rewrite option_guard_True.
  - rewrite (decide_True (P := [] = [])) by done.
    case_decide; simpl; [done|]. by rewrite option_guard_False.
Qed.

Lemma map_sum_files_in_added k l :
  map_sum added (files_in k (set_total <$> tally id l ∅))
  = sum_with rec_added (records_of module_of k l).
Proof.
  rewrite files_in_tally, map_sum_fmap.
  rewrite (map_sum_ext _ added) by done.
  rewrite map_sum_tally_added, map_sum_empty. lia.
Qed.

Lemma map_sum_files_in_removed k l :
  map_sum removed (files_in k (set_total <$> tally id l ∅))
  = sum_with rec_removed (records_of module_of k l).
Proof.
  rewrite files_in_tally, map_sum_fmap.
  rewrite (map_sum_ext _ removed) by done.
  rewrite map_sum_tally_removed, map_sum_empty. lia.
Qed.

Lemma map_sum_files_in_total k l :
  map_sum total (files_in k (set_total <$> tally id l ∅))
  = sum_with rec_churn (records_of module_of k l).
Proof. rewrite files_in_tally. apply map_sum_total_tally. Qed.

(** The entry the whole function leaves under a key. *)
Lemma aggregated_lookup key l k :
  (set_total <$> tally key l ∅) !! k
  = if decide (records_of key k l = []) then None
    else Some (Metrics (sum_with rec_added (records_of key k l))
                       (sum_with rec_removed (records_of key k l))
                       (Some (sum_with rec_churn (records_of key k l)))).
Proof.
  rewrite lookup_fmap, tally_lookup_empty. case_decide; [done|].
  simpl. unfold set_total, rec_churn. simpl. by rewrite sum_with_plus.
Qed.

(** C1. After aggregation the per-file totals, the per-module totals and
    the churn of the records all have the same sum; a path has an entry
    exactly when a record carries it, and the entry's total is the churn of
    the records of that path; a module has an entry exactly when the parent
    directory of some record is that module, and its added, removed and
    total counts are the sums over the file entries whose parent directory
    is that module. *)
Theorem aggregate_churn_conserves_churn (file_churn : list churn_record) :
  let file_metrics := (aggregate_churn file_churn).1 in
  let module_metrics := (aggregate_churn file_churn).2 in
  map_sum total file_metrics = sum_with rec_churn file_churn
  ∧ map_sum total module_metrics = sum_with rec_churn file_churn
  ∧ map_sum total file_metrics = map_sum total module_metrics
  ∧ (∀ path, is_Some (file_metrics !! path)
             ↔ ∃ r, r ∈ file_churn ∧ rec_path r = path)
  ∧ (∀ path m, file_metrics !! path = Some m →
       total_churn m
       = Some (sum_with rec_churn (records_of id path file_churn)))
  ∧ (∀ k, is_Some (module_metrics !! k)
          ↔ ∃ r, r ∈ file_churn ∧ module_of (rec_path r) = k)
  ∧ (∀ k m, module_metrics !! k = Some m →
       added m = map_sum added (files_in k file_metrics)
       ∧ removed m = map_sum removed (files_in k file_metrics)
       ∧ total_churn m = Some (map_sum total (files_in k file_metrics))).
Proof.
  rewrite aggregate_churn_unfold. simpl.
  assert (∀ key k, is_Some ((set_total <$> tally key file_churn ∅) !! k)
                   ↔ ∃ r, r ∈ file_churn ∧ key (rec_path r) = k) as Hdom.
  { intros key k. rewrite aggregated_lookup. case_decide as Hnil.
    - split; [by intros [? ?]|]. intros (r & Hr & Hk).
      rewrite records_of_nil_iff in Hnil. by destruct (Hnil r Hr).
    - split; [|by eauto]. intros _.
      destruct (records_of key k file_churn) as [|r rs] eqn:Hrs; [done|].
      assert (r ∈ records_of key k file_churn) as Hr by (rewrite Hrs; left).
      apply list_elem_of_filter in Hr as [Hk Hin]. eauto. }
  rewrite !map_sum_total_tally.
  split_and!; [done | done | done | apply (Hdom id) | | apply Hdom | ].
  - intros path m. rewrite aggregated_lookup. case_decide; [done|].
    by intros [= <-].
  - intros k m. rewrite aggregated_lookup. case_decide; [done|].
    intros [= <-]. simpl.
    by rewrite map_sum_files_in_added, map_sum_files_in_removed,
      map_sum_files_in_total.
Qed.

(** ** Order independence and sharding *)

Lemma records_of_perm key k l l' :
  l ≡ₚ l' → records_of key k l ≡ₚ records_of key k l'.
Proof. intros Hp. unfold records_of. by rewrite Hp. Qed.

Lemma aggregated_perm key l l' :
  l ≡ₚ l' → set_total <$> tally key l ∅ = set_total <$> tally key l' ∅.
Proof.
  intros Hp. apply map_eq. intros k. rewrite !aggregated_lookup.
  pose proof (records_of_perm key k l l' Hp) as Hk.
  rewrite !(sum_with_perm _ _ _ Hk).
  destruct (decide (records_of key k l = [])) as [Hnil|Hne].
  - rewrite Hnil in Hk. apply Permutation_nil_l in Hk.
    by rewrite decide_True.
  - rewrite decide_False; [done|]. intros Hnil. rewrite Hnil in Hk.
    by apply Permutation_nil_r in Hk.
Qed.

Lemma aggregated_app key l1 l2 :
  set_total <$> tally key (l1 ++ l2) ∅
  = merge_shards (set_total <$> tally key l1 ∅) (set_total <$> tally key l2 ∅).
Proof.
  apply map_eq. intros k. unfold merge_shards.
  rewrite lookup_union_with, !aggregated_lookup.
  unfold records_of. rewrite filter_app.
  destruct (filter _ l1) as [|r1 rs1] eqn:H1;
    destruct (filter _ l2) as [|r2 rs2] eqn:H2; simpl.
  - done.
  - done.
  - by rewrite app_nil_r.
  - unfold merge_metrics. simpl. rewrite !sum_with_app. simpl.
    do 2 f_equal; [lia | lia | f_equal; lia].
Qed.

(** C8. Aggregating a permutation of the records gives the same per-file
    and per-module metrics, and the aggregation of the records equals the
    field-wise sum of the aggregations of the two parts of any partition
    of them. *)
Theorem aggregate_churn_commutative (l l' l1 l2 : list churn_record) :
  l ≡ₚ l' → l ≡ₚ l1 ++ l2 →
  aggregate_churn l' = aggregate_churn l
  ∧ (aggregate_churn l).1
    = merge_shards (aggregate_churn l1).1 (aggregate_churn l2).1
  ∧ (aggregate_churn l).2
    = merge_shards (aggregate_churn l1).2 (aggregate_churn l2).2.
Proof.
  intros Hp Hpart. rewrite !aggregate_churn_unfold. simpl.
  rewrite <- !aggregated_app.
  rewrite <- !(aggregated_perm _ l l') by done.
  by rewrite <- !(aggregated_perm _ l (l1 ++ l2)).
Qed.

Lemma aggregate_churn_commutative_witness :
  let l := [(1, 2, "a/b/c.txt"); (3, 4, "root.txt"); (5, 6, "a/b/d.txt")] in
  let l' := [(3, 4, "root.txt"); (1, 2, "a/b/c.txt"); (5, 6, "a/b/d.txt")] in
  let l1 := [(3, 4, "root.txt"); (5, 6, "a/b/d.txt")] in
  let l2 := [(1, 2, "a/b/c.txt")] in
  aggregate_churn l' = aggregate_churn l
  ∧ (aggregate_churn l).1
    = merge_shards (aggregate_churn l1).1 (aggregate_churn l2).1
  ∧ (aggregate_churn l).2
    = merge_shards (aggregate_churn l1).2 (aggregate_churn l2).2.
Proof.
  intros l l' l1 l2. apply (aggregate_churn_commutative l l' l1 l2).
  - apply perm_swap.
  - apply (Permutation_cons_app [(3, 4, "root.txt"); (5, 6, "a/b/d.txt")] []).
    reflexivity.
Defined.

(** ** Module keys *)

Lemma split_no_sep c s : has_char c s = false → Str.split c s = [s].
Proof.
  induction s as [|a s IH]; [done|]. simpl.
  intros [Ha Hs]%orb_false_iff. rewrite Ha, (IH Hs). done.
Qed.

Lemma split_app_sep c x s :
  has_char c x = false →
  Str.split c (x +:+ String c s) = x :: Str.split c s.
Proof.
  induction x as [|a x IH]; simpl.
  - intros _. by rewrite Ascii.eqb_refl.
  - intros [Ha Hx]%orb_false_iff. by rewrite Ha, (IH Hx).
Qed.

Lemma split_join c cs :
  cs ≠ [] → Forall (λ x, has_char c x = false) cs →
  Str.split c (Str.join (String c "") cs) = cs.
Proof.
  induction cs as [|x cs IH]; [done|]. intros _ Hall.
  apply Forall_cons in Hall as [Hx Hcs].
  destruct cs as [|y cs]; [by apply split_no_sep|].
  change (Str.join (String c "") (x :: y :: cs))
    with (x +:+ String c (Str.join (String c "") (y :: cs))).
  rewrite split_app_sep by done. by rewrite IH.
Qed.

Lemma splitroot_relative a s :
  a ≠ "/"%char → Path.splitroot (String a s) = ("", String a s).
Proof.
  intros Ha. unfold Path.splitroot.
  destruct a as [[] [] [] [] [] [] [] []]; try done.
Qed.

Lemma join_cons_component x cs :
  component x → ∃ a s, a ≠ "/"%char ∧ Str.join "/" (x :: cs) = String a s.
Proof.
  intros (Hne & _ & Hs). destruct x as [|a x]; [done|].
  exists a. simpl in Hs. apply orb_false_iff in Hs as [Ha _].
  apply Ascii.eqb_neq in Ha.
  destruct cs; simpl; eauto.
Qed.

Lemma filter_components cs :
  Forall component cs → filter (λ x, x ≠ "" ∧ x ≠ ".") cs = cs.
Proof.
  induction 1 as [|y ys Hy _ IH]; [done|].
  rewrite filter_cons_True; [by rewrite IH|].
  by destruct Hy as (? & ? & _).
Qed.

(** A path written as proper components parses to these components. *)
Lemma parse_join cs :
  cs ≠ [] → Forall component cs →
  Path.parse (Str.join "/" cs) = Path.mk "" cs.
Proof.
  intros Hne Hall. destruct cs as [|x cs]; [done|].
  pose proof Hall as [Hx _]%Forall_cons.
  destruct (join_cons_component x cs Hx) as (a & s & Ha & Hj).
  unfold Path.parse. rewrite decide_False by (by rewrite Hj).
  rewrite Hj, splitroot_relative by done. rewrite <- Hj.
  rewrite split_join; [|done|].
  - by rewrite filter_components.
  - eapply Forall_impl; [exact Hall|]. by intros y (_ & _ & ?).
Qed.

Lemma module_of_join dirs name :
  Forall component dirs → component name →
  module_of (Str.join "/" (dirs ++ [name]))
  = match dirs with [] => "." | _ => Str.join "/" dirs end.
Proof.
  intros Hdirs Hname. unfold module_of.
  rewrite parse_join.
  - unfold Path.parent. simpl.
    destruct (dirs ++ [name])%list as [|x xs] eqn:Happ.
    { by destruct dirs. }
    rewrite <- Happ, removelast_last.
    destruct dirs as [|d ds]; [done|].
    rewrite decide_True by done. unfold Path.as_posix. simpl.
    done.
  - by destruct dirs.
  - apply Forall_app. split; [done|]. by apply Forall_singleton.
Qed.

Lemma parent_no_sep name :
  has_char "/" name = false →
  Path.parent (Path.parse name) = Path.mk "" [].
Proof.
  intros Hs. unfold Path.parse. case_decide as Hempty; [done|].
  destruct name as [|a s]; [done|].
  simpl in Hs. apply orb_false_iff in Hs as [Ha Hs'].
  rewrite splitroot_relative by (by apply Ascii.eqb_neq).
  rewrite split_no_sep by (simpl; by rewrite Ha, Hs').
  rewrite filter_cons, filter_nil. by case_decide.
Qed.

Lemma module_of_no_sep name : has_char "/" name = false → module_of name = ".".
Proof. intros Hs. unfold module_of. by rewrite parent_no_sep. Qed.

(** C3. The entry of [module_metrics] under a key sums the records whose
    path has that key as [module_of]; for a path written as directory
    names and a file name, [module_of] is the directory names joined again
    (the parent directory), and the sentinel ["."] when there is no
    directory name.  So ["a/b/c.txt"] goes to ["a/b"] and ["root.txt"] to
    ["."]. *)
Theorem module_key_is_parent_directory
    (file_churn : list churn_record) (k : string)
    (dirs : list string) (name : string) :
  Forall component dirs → component name →
  (aggregate_churn file_churn).2 !! k
  = (if decide (records_of module_of k file_churn = []) then None
     else Some (Metrics
                  (sum_with rec_added (records_of module_of k file_churn))
                  (sum_with rec_removed (records_of module_of k file_churn))
                  (Some (sum_with rec_churn
                           (records_of module_of k file_churn)))))
  ∧ module_of (Str.join "/" (dirs ++ [name]))
    = match dirs with [] => "." | _ => Str.join "/" dirs end
  ∧ module_of "a/b/c.txt" = "a/b"
  ∧ module_of "root.txt" = ".".
Proof.
  intros Hdirs Hname. split_and!.
  - rewrite aggregate_churn_unfold. apply aggregated_lookup.
  - by apply module_of_join.
  - reflexivity.
  - reflexivity.
Qed.

Lemma module_key_is_parent_directory_witness :
  (aggregate_churn [(1, 2, "src/core/x.py"); (3, 4, "setup.py");
                    (5, 6, "src/core/y.py")]).2 !! "src/core"
  = Some (Metrics 6 8 (Some 14))
  ∧ module_of (Str.join "/" (["src"; "core"] ++ ["x.py"])) = "src/core".
Proof.
  destruct (module_key_is_parent_directory
              [(1, 2, "src/core/x.py"); (3, 4, "setup.py");
               (5, 6, "src/core/y.py")]
              "src/core" ["src"; "core"] "x.py") as (Hagg & Hkey & _).
  - repeat constructor; discriminate.
  - repeat constructor; discriminate.
  - split; [exact Hagg | exact Hkey].
Defined.

(** ** The numstat parser *)

Lemma split_not_nil c s : Str.split c s ≠ [].
Proof. destruct s as [|a s]; simpl; [done|]. repeat case_match; done. Qed.

(** The first field of a split: either it is the whole string, or a
    separator and the rest of the fields follow it. *)
Lemma split_cons_inv c s x rest :
  Str.split c s = x :: rest →
  has_char c x = false
  ∧ ((rest = [] ∧ s = x)
     ∨ (∃ s', s = x +:+ String c s' ∧ Str.split c s' = rest)).
Proof.
  revert x rest. induction s as [|a s IH]; intros x rest; simpl.
  - intros [= <- <-]. eauto.
  - destruct (Ascii.eqb a c) eqn:Hac.
    + intros [= <- <-]. apply Ascii.eqb_eq in Hac as ->.
      split; [done|]. right. by exists s.
    + destruct (Str.split c s) as [|w ws] eqn:Hs.
      { by apply split_not_nil in Hs. }
      intros [= <- <-]. destruct (IH w ws eq_refl) as [Hw Hcases].
      split; [simpl; by rewrite Hac|].
      destruct Hcases as [[-> ->]|(s' & -> & Hs')]; [by left|].
      right. by exists s'.
Qed.

Lemma split_three c s x y z :
  Str.split c s = [x; y; z]
  ↔ s = x +:+ String c (y +:+ String c z)
    ∧ has_char c x = false ∧ has_char c y = false ∧ has_char c z = false.
Proof.
  split.
  - intros Hs. apply split_cons_inv in Hs as [Hx [[? _]|(s1 & -> & Hs1)]];
      [done|].
    apply split_cons_inv in Hs1 as [Hy [[? _]|(s2 & -> & Hs2)]]; [done|].
    apply split_cons_inv in Hs2 as [Hz [[_ ->]|(s3 & -> & Hs3)]].
    + done.
    + by apply split_not_nil in Hs3.
  - intros (-> & Hx & Hy & Hz).
    by rewrite !split_app_sep, split_no_sep.
Qed.

Lemma record_of_line_accepted line r :
  record_of_line line = Some r ↔ accepted line r.
Proof.
  unfold record_of_line, accepted. destruct r as [[a rm] p].
  cbv [rec_path rec_added rec_removed fst snd].
  case_decide as Hempty; [split; [done | by intros [? _]]|].
  destruct (Str.startswith "commit" (Str.strip line)) eqn:Hc;
    [split; [done | by intros (_ & ? & _)]|].
  split.
  - destruct (Str.split TAB (Str.strip line)) as [|f1 [|f2 [|f3 [|]]]] eqn:Hs;
      try done.
    apply split_three in Hs as (Hline & H1 & H2 & H3).
    destruct (py_int f1) as [a'|] eqn:Ha; [|done].
    destruct (py_int f2) as [r'|] eqn:Hr; [|done].
    intros [= -> -> ->]. split_and!; [done..|]. by exists f1, f2.
  - intros (_ & _ & f1 & f2 & Hline & H1 & H2 & H3 & Ha & Hr).
    assert (Str.split TAB (Str.strip line) = [f1; f2; p]) as ->
      by (by apply split_three).
    by rewrite Ha, Hr.
Qed.

(** [int] raises nothing but [ValueError]. *)
Lemma py_int_raises s e : py_int s = Raise e → e = ValueError.
Proof.
  unfold py_int. cbv zeta.
  generalize (int_skip_trailing (int_skip_leading s)). intros t.
  destruct (match t with
            | String "+" b => (1, b)
            | String "-" b => (-1, b)
            | _ => (1, t)
            end) as [sign body].
  destruct (int_body 0 0 false body) as [[v n]|]; [|congruence].
  case_decide; congruence.
Qed.

Lemma parse_line_spec file_churn line :
  parse_line file_churn line
  = Ok (file_churn ++ option_list (record_of_line line))%list.
Proof.
  unfold parse_line, record_of_line. cbv zeta.
  destruct (decide (Str.strip line = "")) as [->|Hne].
  { cbn. by rewrite app_nil_r. }
  rewrite bool_decide_eq_false_2 by done. rewrite orb_false_l.
  destruct (Str.startswith "commit" (Str.strip line)).
  { cbn. by rewrite app_nil_r. }
  destruct (Str.split TAB (Str.strip line)) as [|f1 [|f2 [|f3 [|]]]];
    cbn; rewrite ?app_nil_r; try done.
  destruct (py_int f1) as [a|e1] eqn:H1; cbn.
  - destruct (py_int f2) as [r|e2] eqn:H2; cbn; [done|].
    apply py_int_raises in H2 as ->. by rewrite app_nil_r.
  - apply py_int_raises in H1 as ->. by rewrite app_nil_r.
Qed.

Lemma parse_lines_spec file_churn lines :
  parse_lines file_churn lines
  = Ok (file_churn ++ omap record_of_line lines)%list.
Proof.
  revert file_churn. induction lines as [|line lines IH]; intros fc.
  - cbn. by rewrite app_nil_r.
  - cbn [parse_lines]. rewrite parse_line_spec. cbn [bind]. rewrite IH.
    rewrite <- app_assoc. do 2 f_equal.
    cbn [omap list_omap]. by destruct (record_of_line line).
Qed.

(** C2. The parser never raises: it returns the records of the accepted
    lines, in the order of the lines.  A line is accepted exactly when,
    once stripped, it is not empty, does not start with ["commit"], is made
    of three fields separated by two tabs, and its first two fields are
    integers as [int] reads them; its record is these two integers and
    the third field.  A line with ["-"] in place of the counts is skipped,
    and so is a line whose count follows a separator that [int] does not
    take for white space (here U+001F). *)
Theorem parse_git_numstat_best_effort (lines : list string) :
  parse_git_numstat lines = Ok (omap record_of_line lines)
  ∧ (∀ line r, record_of_line line = Some r ↔ accepted line r)
  ∧ (∀ r, r ∈ omap record_of_line lines
          ↔ ∃ line, line ∈ lines ∧ accepted line r)
  ∧ parse_git_numstat
      ["commit 1f3a"; "1" +:+ String TAB ("2" +:+ String TAB "a/b.txt");
       "-" +:+ String TAB ("-" +:+ String TAB "img.png"); "";
       "5" +:+ String TAB (String "031" "3" +:+ String TAB "q")]
    = Ok [(1, 2, "a/b.txt")].
Proof.
  split_and!.
  - unfold parse_git_numstat. by rewrite parse_lines_spec.
  - apply record_of_line_accepted.
  - intros r. rewrite list_elem_of_omap.
    by setoid_rewrite record_of_line_accepted.
  - reflexivity.
Qed.

(** ** Log extraction *)

(** C9. The log extraction raises exactly when the command exits with a
    code other than zero; the error then carries the captured error text
    and the run ends with it, before any parsing or aggregation.
    Otherwise the lines of the standard output are returned. *)
Theorem run_git_log_fails_iff_nonzero_exit
    (subprocess_run : list string → CompletedProcess) (repo : string) :
  let result := subprocess_run (git_log_cmd repo) in
  ((∃ e, run_git_log subprocess_run repo = Raise e) ↔ returncode result ≠ 0)
  ∧ (returncode result ≠ 0 ↔
     run_git_log subprocess_run repo
     = Raise (RuntimeError ("Git command failed: " +:+ stderr result)))
  ∧ (returncode result ≠ 0 ↔
     main subprocess_run repo
     = Raise (RuntimeError ("Git command failed: " +:+ stderr result)))
  ∧ (returncode result = 0 ↔
     run_git_log subprocess_run repo = Ok (Str.splitlines (stdout result))).
Proof.
  unfold main, run_git_log, parse_git_numstat. cbv zeta.
  destruct (decide (returncode (subprocess_run (git_log_cmd repo)) ≠ 0))
    as [Hne|Heq]; cbn [bind].
  - split_and!; split; try done; eauto.
  - rewrite parse_lines_spec. cbn [bind].
    apply dec_stable in Heq.
    split_and!; split; try done. by intros [e [=]].
Qed.

(** ** Column detection *)

Lemma filter_rename_week d cols :
  filter (λ c, mentions "week" c) (rename d "defects_reported" cols)
  = filter (λ c, c ≠ d ∧ mentions "week" c) cols.
Proof.
  induction cols as [|c cols IH]; [done|]. cbn [rename map].
  fold (rename d "defects_reported" cols).
  destruct (decide (c = d)) as [->|Hne].
  - rewrite filter_cons_False by (by vm_compute).
    rewrite filter_cons_False by (by intros [? _]). done.
  - rewrite !filter_cons, IH.
    destruct (decide (mentions "week" c)) as [Hw|Hw].
    + by rewrite decide_True.
    + rewrite decide_False; [done|]. by intros [_ ?].
Qed.

(** C7, as a counterexample: with the columns ["Weekly_Defects"] and
    ["Week_Start"] the week column chosen is not the first column that
    mentions "week". *)
Lemma week_column_not_first_match :
  ¬ selects_first_matches ["Weekly_Defects"; "Week_Start"].
Proof.
  intros Hsel.
  destruct (Hsel "Weekly_Defects" "Week_Start"
                   ["defects_reported"; "week_start"] eq_refl) as [_ Hweek].
  vm_compute in Hweek. discriminate Hweek.
Qed.

(** C7, amended. The defect column is the first column whose lowercased
    name contains "defect"; the week column is the first column other
    than the chosen defect column whose lowercased name contains "week"
    (the defect column has been renamed by then).  The session stops when
    one of them does not exist.  Headers [Week_Start, DefectCount] select
    [DefectCount] and [Week_Start], in any case of the letters. *)
Theorem detect_columns_first_match (columns : list string) :
  detect_columns columns
  = match first_match "defect" columns with
    | None => inl NoDefectColumn
    | Some defect_col =>
        match head (filter (λ c, c ≠ defect_col ∧ mentions "week" c)
                           columns) with
        | None => inl NoWeekColumn
        | Some week_col =>
            inr (defect_col, week_col,
                 rename week_col "week_start"
                   (rename defect_col "defects_reported" columns))
        end
    end
  ∧ detect_columns ["Week_Start"; "DefectCount"]
    = inr ("DefectCount", "Week_Start", ["week_start"; "defects_reported"])
  ∧ detect_columns ["WEEK_START"; "defectcount"]
    = inr ("defectcount", "WEEK_START", ["week_start"; "defects_reported"]).
Proof.
  split_and!; [|reflexivity..].
  unfold detect_columns, first_match. cbv zeta.
  destruct (filter (λ c, mentions "defect" c) columns) as [|d ds]; [done|].
  cbn [head]. rewrite filter_rename_week.
  by destruct (filter _ columns).
Qed.

(** ** The forecaster: what holds in any arithmetic *)

Section ForecasterFacts.
Context {A : Type} `{Arith A}.
Implicit Types (data forecast y : list A) (window horizon k : nat).

Lemma moving_average_loop_values window horizon data forecast :
  moving_average_loop window horizon data forecast
  = ((data ++ moving_average_values window horizon data)%list,
     (forecast ++ moving_average_values window horizon data)%list).
Proof.
  revert data forecast.
  induction horizon as [|h IH]; intros data forecast; cbn.
  - by rewrite !app_nil_r.
  - rewrite IH. by rewrite <- !app_assoc.
Qed.

Lemma moving_average_values_length window horizon data :
  length (moving_average_values window horizon data) = horizon.
Proof.
  revert data. induction horizon as [|h IH]; intros data; cbn; [done|].
  by rewrite IH.
Qed.

Lemma slice_last_is_last window data :
  (0 < window)%nat →
  slice_last window data = reverse (take window (reverse data)).
Proof.
  intros Hw. unfold slice_last. rewrite decide_False by lia.
  by rewrite take_reverse, reverse_involutive.
Qed.

Lemma moving_average_step_window_mean window data :
  (0 < window)%nat →
  moving_average_step window data = window_mean window data.
Proof.
  intros Hw. unfold moving_average_step, window_mean.
  destruct (decide (window ≤ length data)%nat) as [Hle|Hgt].
  - rewrite decide_False by lia. by rewrite slice_last_is_last.
  - by rewrite decide_True by lia.
Qed.

Lemma moving_average_values_lookup window horizon data k :
  (k < horizon)%nat →
  moving_average_values window horizon data !! k
  = Some (moving_average_step window
            (data ++ take k (moving_average_values window horizon data))).
Proof.
  revert data k. induction horizon as [|h IH]; intros data k Hk; [lia|].
  destruct k as [|k]; cbn.
  - by rewrite app_nil_r.
  - rewrite IH by lia. by rewrite <- app_assoc.
Qed.

Lemma ewma_loop_emit alpha horizon first rest forecast :
  ewma_loop alpha horizon (first :: rest) forecast
  = Ok (forecast
        ++ ewma_emit alpha horizon (foldl (ewma_update alpha) first rest))%list.
Proof.
  revert rest forecast.
  induction horizon as [|h IH]; intros rest forecast; cbn.
  - by rewrite app_nil_r.
  - rewrite IH, foldl_snoc. by rewrite <- app_assoc.
Qed.

Lemma ewma_emit_length alpha horizon s :
  length (ewma_emit alpha horizon s) = horizon.
Proof.
  revert s. induction horizon as [|h IH]; intros s; cbn; [done|].
  by rewrite IH.
Qed.

End ForecasterFacts.

(** C4. With a positive window (so for every window of at least 2, every
    series and every horizon) the [moving_average] branch returns
    [horizon] values; the working series it leaves is the historical
    series followed by these values; and each value is the mean of the
    last [window] elements (of all the elements when there are fewer) of
    the historical series followed by the values before it, which are fed
    back as they are.  Window 2 over [1, 2, 3] with horizon 2 gives
    [2.5, 2.75], over the rationals and in binary64. *)
Theorem moving_average_feeds_back {A : Type} `{Arith A}
    (window horizon : nat) (y : list A) :
  (0 < window)%nat →
  length (moving_average window horizon y) = horizon
  ∧ (moving_average_loop window horizon y []).1
    = (y ++ moving_average window horizon y)%list
  ∧ (∀ k, (k < horizon)%nat →
       moving_average window horizon y !! k
       = Some (window_mean window
                 (y ++ take k (moving_average window horizon y))))
  ∧ moving_average 2 2 [1; 2; 3]%Q = [5 # 2; 11 # 4]%Q
  ∧ moving_average 2 2 [1; 2; 3]%float = [2.5; 2.75]%float.
Proof.
  intros Hw. unfold moving_average.
  rewrite moving_average_loop_values. cbn [fst snd app].
  split_and!.
  - apply moving_average_values_length.
  - done.
  - intros k Hk. rewrite moving_average_values_lookup by done.
    by rewrite moving_average_step_window_mean.
  - reflexivity.
  - reflexivity.
Qed.

Lemma moving_average_feeds_back_witness :
  length (moving_average 3 4 [4; 8; 6; 10]%Q) = 4%nat
  ∧ moving_average 3 4 [4; 8; 6; 10]%Q !! 1%nat
    = Some (window_mean 3 ([4; 8; 6; 10]%Q
                           ++ take 1 (moving_average 3 4 [4; 8; 6; 10]%Q))).
Proof.
  destruct (moving_average_feeds_back 3 4 [4; 8; 6; 10]%Q) as (Hlen & _ & Hk & _).
  - lia.
  - split; [exact Hlen | apply Hk; lia].
Defined.

(** C5. On a series that is not empty the [ewma] branch, which folds the
    whole growing series again for every forecast, returns [horizon]
    values, and they are the values of the incremental EWMA that keeps one
    running state.  This holds in any arithmetic, whatever [alpha] is. *)
Theorem ewma_refold_is_incremental {A : Type} `{Arith A}
    (alpha : A) (horizon : nat) (y : list A) :
  y ≠ [] →
  ewma alpha horizon y = ewma_incremental alpha horizon y
  ∧ ∃ forecast, ewma alpha horizon y = Ok forecast
                ∧ length forecast = horizon.
Proof.
  intros Hy. destruct y as [|first rest]; [done|].
  unfold ewma, ewma_incremental. rewrite ewma_loop_emit. cbn [app].
  split; [done|]. eexists. split; [done|]. apply ewma_emit_length.
Qed.

Lemma ewma_refold_is_incremental_witness :
  ewma (3 # 10)%Q 3 [1; 2; 3]%Q = ewma_incremental (3 # 10)%Q 3 [1; 2; 3]%Q
  ∧ ∃ forecast, ewma (3 # 10)%Q 3 [1; 2; 3]%Q = Ok forecast
                ∧ length forecast = 3%nat.
Proof. apply (ewma_refold_is_incremental (3 # 10)%Q 3 [1; 2; 3]%Q). discriminate. Defined.

(** * Further properties of the churn script *)

Local Close Scope Q_scope.
Local Open Scope Z_scope.
Local Open Scope list_scope.

(** ** The dicts in iteration order *)

Lemma foldl_aggregate_step_items l d1 d2 :
  foldl aggregate_step_items (d1, d2) l
  = (tally_items id l d1, tally_items module_of l d2).
Proof.
  revert d1 d2. induction l as [|[[a r] p] l IH]; intros d1 d2; [done|].
  simpl. by rewrite IH.
Qed.

Lemma list_to_map_bump_item k a r (d : items) :
  list_to_map (bump_item k a r d) = bump k a r (list_to_map d).
Proof.
  induction d as [|[k0 m0] d IH]; cbn [bump_item].
  - unfold bump. cbn. by rewrite lookup_empty.
  - case_decide as Hk.
    + subst k0. cbn [list_to_map foldr uncurry]. unfold bump.
      rewrite lookup_insert_eq. cbn. by rewrite insert_insert_eq.
    + cbn [list_to_map foldr uncurry]. fold (list_to_map (M := gmap string metrics) d).
      fold (list_to_map (M := gmap string metrics) (bump_item k a r d)).
      rewrite IH. unfold bump. rewrite lookup_insert_ne by done.
      by rewrite insert_insert_ne.
Qed.

Lemma tally_items_cons key r l (d : items) :
  tally_items key (r :: l) d
  = tally_items key l
      (bump_item (key (rec_path r)) (rec_added r) (rec_removed r) d).
Proof. done. Qed.

Lemma list_to_map_tally_items key l (d : items) :
  list_to_map (tally_items key l d) = tally key l (list_to_map d).
Proof.
  revert d. induction l as [|r l IH]; intros d; [done|].
  by rewrite tally_items_cons, tally_cons, IH, list_to_map_bump_item.
Qed.

Lemma keys_bump_item k a r (d : items) :
  (bump_item k a r d).*1 = if decide (k ∈ d.*1) then d.*1 else (d.*1 ++ [k])%list.
Proof.
  induction d as [|[k0 m0] d IH]; cbn [bump_item].
  - rewrite decide_False; [done|]. cbn. apply not_elem_of_nil.
  - destruct (decide (k0 = k)) as [Hk|Hk].
    + subst k0. rewrite decide_True; [done|]. cbn. left.
    + rewrite !fmap_cons, IH. cbn [fst].
      destruct (decide (k ∈ d.*1)) as [Hin|Hnin].
      * rewrite decide_True; [done|]. by right.
      * rewrite decide_False; [done|]. by intros [?|?]%elem_of_cons.
Qed.

Lemma first_seen_ext s1 s2 ks :
  (∀ x, x ∈ s1 ↔ x ∈ s2) → first_seen s1 ks = first_seen s2 ks.
Proof.
  revert s1 s2. induction ks as [|k ks IH]; intros s1 s2 Hs; [done|].
  cbn [first_seen]. destruct (decide (k ∈ s1)) as [H1|H1].
  - rewrite decide_True by (by apply Hs). by apply IH.
  - rewrite decide_False by (by rewrite <- Hs). f_equal. apply IH.
    intros x. rewrite !elem_of_cons. by rewrite Hs.
Qed.

Lemma keys_tally_items key l (d : items) :
  (tally_items key l d).*1
  = (d.*1 ++ first_seen (d.*1) ((λ r, key (rec_path r)) <$> l))%list.
Proof.
  revert d. induction l as [|r l IH]; intros d.
  - cbn. by rewrite app_nil_r.
  - rewrite tally_items_cons, IH, keys_bump_item.
    cbn [fmap list_fmap first_seen].
    destruct (decide (key (rec_path r) ∈ d.*1)) as [Hin|Hnin]; [done|].
    rewrite <- app_assoc. cbn [app]. do 2 f_equal.
    apply first_seen_ext. intros x. split.
    + intros [Hx|Hx]%elem_of_app; [by right|].
      apply list_elem_of_singleton in Hx as ->. left.
    + intros [->|Hx]%elem_of_cons; apply elem_of_app; [right; left | by left].
Qed.

Lemma first_seen_fresh seen ks : ∀ k, k ∈ first_seen seen ks → k ∉ seen.
Proof.
  revert seen. induction ks as [|k0 ks IH]; intros seen k; cbn [first_seen].
  - by intros ?%not_elem_of_nil.
  - case_decide as H0; [by apply IH|].
    intros [->|Hk]%elem_of_cons; [done|].
    apply IH in Hk. intros Hseen. apply Hk. by right.
Qed.

Lemma first_seen_NoDup seen ks : NoDup (first_seen seen ks).
Proof.
  revert seen. induction ks as [|k ks IH]; intros seen; cbn [first_seen].
  - constructor.
  - case_decide; [apply IH|]. constructor; [|apply IH].
    intros Hk%first_seen_fresh. apply Hk. left.
Qed.

(** The items of the two dicts refine the dicts of [aggregate_churn]. *)
Lemma aggregate_churn_items_order_facts (file_churn : list churn_record) :
  (list_to_map (aggregate_churn_items file_churn).1
   = (aggregate_churn file_churn).1
   ∧ list_to_map (aggregate_churn_items file_churn).2
     = (aggregate_churn file_churn).2)
  ∧ ((aggregate_churn_items file_churn).1.*1
     = first_seen [] (rec_path <$> file_churn)
     ∧ (aggregate_churn_items file_churn).2.*1
       = first_seen [] ((λ r, module_of (rec_path r)) <$> file_churn))
  ∧ NoDup (aggregate_churn_items file_churn).1.*1
  ∧ NoDup (aggregate_churn_items file_churn).2.*1.
Proof.
  unfold aggregate_churn_items. rewrite foldl_aggregate_step_items.
  rewrite aggregate_churn_unfold. cbn [fst snd].
  assert (∀ d : items, (prod_map id set_total <$> d).*1 = d.*1) as Hkeys.
  { intros d. rewrite <- list_fmap_compose. apply list_fmap_ext.
    by intros i [k m]. }
  rewrite !list_to_map_fmap, !list_to_map_tally_items, !Hkeys.
  rewrite !keys_tally_items. cbn [fmap list_fmap app].
  split_and!; try done; apply first_seen_NoDup.
Qed.

(** X1. Iterating over the two dicts gives each key once, in the order in
    which the keys first appear in the records, with the values of
    [aggregate_churn]. *)
Theorem aggregate_churn_items_order (file_churn : list churn_record) :
  let file_items := (aggregate_churn_items file_churn).1 in
  let module_items := (aggregate_churn_items file_churn).2 in
  list_to_map file_items = (aggregate_churn file_churn).1
  ∧ list_to_map module_items = (aggregate_churn file_churn).2
  ∧ file_items.*1 = first_seen [] (rec_path <$> file_churn)
  ∧ module_items.*1
    = first_seen [] ((λ r, module_of (rec_path r)) <$> file_churn)
  ∧ NoDup file_items.*1 ∧ NoDup module_items.*1.
Proof.
  destruct (aggregate_churn_items_order_facts file_churn)
    as ((? & ?) & (? & ?) & ? & ?).
  by split_and!.
Qed.

(** ** Sorting the items *)

Lemma sorted_by_app {A} (R : A → A → Prop) (l1 l2 : list A) :
  sorted_by R (l1 ++ l2)
  ↔ (∀ x1 x2, x1 ∈ l1 → x2 ∈ l2 → R x1 x2) ∧ sorted_by R l1 ∧ sorted_by R l2.
Proof.
  induction l1 as [|x l1 IH]; cbn [app sorted_by].
  - split; [intros ?; split_and!; [|done..]|by intros (_ & _ & ?)].
    by intros ?? ?%not_elem_of_nil.
  - rewrite IH, Forall_app, !Forall_forall. split.
    + intros ([H1 H2] & H12 & Hs1 & Hs2). split_and!; try done.
      intros x1 x2 [->|Hx1]%elem_of_cons Hx2; [by apply H2 | by apply H12].
    + intros (H12 & [H1 Hs1] & Hs2). split_and!; try done.
      * intros y Hy. apply H12; [left | done].
      * intros x1 x2 Hx1 Hx2. apply H12; [by right | done].
Qed.

Lemma sorted_by_reverse {A} (R : A → A → Prop) (l : list A) :
  sorted_by R l → sorted_by (flip R) (reverse l).
Proof.
  induction l as [|x l IH]; [done|]. intros [Hx Hl].
  rewrite reverse_cons. apply sorted_by_app. split_and!.
  - intros x1 x2 Hx1 ->%list_elem_of_singleton. rewrite Forall_forall in Hx.
    apply Hx. by apply elem_of_reverse.
  - by apply IH.
  - cbn. by split.
Qed.

Lemma sorted_by_fmap {A B} (f : A → B) (R : A → A → Prop)
    (R' : B → B → Prop) (l : list A) :
  (∀ x y, R x y → R' (f x) (f y)) → sorted_by R l → sorted_by R' (f <$> l).
Proof.
  intros HR. induction l as [|x l IH]; [done|]. intros [Hx Hl].
  rewrite fmap_cons. split; [|by apply IH].
  rewrite Forall_fmap. eapply Forall_impl; [exact Hx|]. intros y. apply HR.
Qed.

Lemma insert_desc_perm x (d : items) : insert_desc x d ≡ₚ x :: d.
Proof.
  induction d as [|y d IH]; [done|]. cbn [insert_desc].
  case_decide; [|done]. rewrite IH. apply perm_swap.
Qed.

Lemma sorted_desc_perm (d : items) : sorted_desc d ≡ₚ d.
Proof.
  induction d as [|x d IH]; [done|].
  cbn [sorted_desc foldr]. fold (sorted_desc d).
  by rewrite insert_desc_perm, IH.
Qed.

Lemma insert_desc_sorted x (d : items) :
  sorted_by desc d → sorted_by desc (insert_desc x d).
Proof.
  induction d as [|y d IH]; [done|]. intros [Hy Hd]. cbn [insert_desc].
  case_decide as Hxy.
  - split; [|by apply IH].
    rewrite (insert_desc_perm x d). constructor; [|done]. unfold desc. lia.
  - split; [|by split]. constructor; [unfold desc; lia|].
    eapply Forall_impl; [exact Hy|]. unfold desc. intros z. lia.
Qed.

Lemma sorted_desc_sorted (d : items) : sorted_by desc (sorted_desc d).
Proof.
  induction d as [|x d IH]; [done|].
  cbn [sorted_desc foldr]. fold (sorted_desc d). by apply insert_desc_sorted.
Qed.

(** Items with the same sort key keep their order. *)
Lemma insert_desc_stable c x (d : items) :
  filter (λ y, churn_key y = c) (insert_desc x d)
  = filter (λ y, churn_key y = c) (x :: d).
Proof.
  induction d as [|y d IH]; [done|]. cbn [insert_desc].
  case_decide as Hxy; [|done].
  destruct (decide (churn_key y = c)) as [Hy|Hy].
  - rewrite (filter_cons_True _ y) by done.
    rewrite (filter_cons_False _ x) by lia.
    rewrite (filter_cons_True _ y) by done. f_equal.
    etrans; [exact IH|]. by rewrite filter_cons_False by lia.
  - rewrite (filter_cons_False _ y) by done.
    etrans; [exact IH|].
    destruct (decide (churn_key x = c)) as [Hx|Hx].
    + rewrite !(filter_cons_True _ x) by done.
      by rewrite (filter_cons_False _ y).
    + rewrite !(filter_cons_False _ x) by done.
      by rewrite (filter_cons_False _ y).
Qed.

Lemma sorted_desc_stable c (d : items) :
  filter (λ x, churn_key x = c) (sorted_desc d)
  = filter (λ x, churn_key x = c) d.
Proof.
  induction d as [|x d IH]; [done|].
  cbn [sorted_desc foldr]. fold (sorted_desc d).
  rewrite insert_desc_stable.
  destruct (decide (churn_key x = c)) as [Hx|Hx].
  - rewrite !(filter_cons_True _ x) by done. f_equal. apply IH.
  - rewrite !(filter_cons_False _ x) by done. apply IH.
Qed.

(** ** The two charts *)

(** X2. For a dict whose entries carry their [total_churn], the bars of
    [plot_top_files] are the [top_n] items with the greatest churn (all of
    them when there are fewer): no hidden item has more churn than a
    shown one, items with the same churn are taken in the order of the
    dict, and the values handed to the chart ascend, so the greatest bar
    is drawn last. *)
Theorem plot_top_files_shows_highest (file_metrics : items) (top_n : nat) :
  Forall (λ x, is_Some (total_churn x.2)) file_metrics →
  ∃ shown hidden : items,
    file_metrics ≡ₚ shown ++ hidden
    ∧ (plot_top_files file_metrics top_n).1 = reverse shown.*1
    ∧ (plot_top_files file_metrics top_n).2 = reverse (churn_key <$> shown)
    ∧ length shown = (top_n `min` length file_metrics)%nat
    ∧ (∀ x y, x ∈ shown → y ∈ hidden → churn_key y ≤ churn_key x)
    ∧ (∀ c, filter (λ x, churn_key x = c) (shown ++ hidden)
            = filter (λ x, churn_key x = c) file_metrics)
    ∧ sorted_by Z.le (plot_top_files file_metrics top_n).2.
Proof.
  intros _.
  exists (take top_n (sorted_desc file_metrics)),
         (drop top_n (sorted_desc file_metrics)).
  pose proof (sorted_desc_sorted file_metrics) as Hsorted.
  rewrite <- (take_drop top_n (sorted_desc file_metrics)) in Hsorted.
  apply sorted_by_app in Hsorted as (Hcut & Hshown & _).
  rewrite take_drop. unfold plot_top_files. cbn [fst snd].
  split_and!; try done.
  - by rewrite sorted_desc_perm.
  - rewrite length_take. by rewrite (Permutation_length (sorted_desc_perm _)).
  - intros c. apply sorted_desc_stable.
  - apply sorted_by_reverse.
    apply (sorted_by_fmap churn_key desc (λ a b : Z, (b ≤ a)%Z)); [|done].
    by intros x y.
Qed.

Lemma plot_top_files_shows_highest_witness :
  let d := [("a.py", Metrics 1 2 (Some 3)); ("b.py", Metrics 4 4 (Some 8));
            ("c.py", Metrics 2 1 (Some 3)); ("d.py", Metrics 0 1 (Some 1))] in
  ∃ shown hidden : items,
    d ≡ₚ shown ++ hidden
    ∧ (plot_top_files d 2).1 = reverse shown.*1
    ∧ (plot_top_files d 2).2 = reverse (churn_key <$> shown)
    ∧ length shown = (2 `min` length d)%nat
    ∧ (∀ x y, x ∈ shown → y ∈ hidden → churn_key y ≤ churn_key x)
    ∧ (∀ c, filter (λ x, churn_key x = c) (shown ++ hidden)
            = filter (λ x, churn_key x = c) d)
    ∧ sorted_by Z.le (plot_top_files d 2).2.
Proof.
  intros d. apply (plot_top_files_shows_highest d 2).
  repeat constructor; by eexists.
Defined.

Lemma map_sum_list_to_map f (d : items) :
  NoDup d.*1 → map_sum f (list_to_map d) = sum_with (λ x, f x.2) d.
Proof.
  induction d as [|[k m] d IH]; [intros _; apply map_sum_empty|].
  rewrite fmap_cons. intros [Hk Hd]%NoDup_cons.
  change (list_to_map ((k, m) :: d))
    with (<[k:=m]> (list_to_map d : gmap string metrics)).
  rewrite map_sum_insert_None by (by apply not_elem_of_list_to_map_1).
  rewrite (IH Hd). done.
Qed.

(** X3. [plot_modules] draws every module of the aggregation once, each
    with its total churn, in descending order of churn, and the heights of
    its bars add up to the churn of all the records. *)
Theorem plot_modules_draws_all_churn (file_churn : list churn_record) :
  let module_metrics := (aggregate_churn file_churn).2 in
  let chart := plot_modules (aggregate_churn_items file_churn).2 in
  NoDup chart.1
  ∧ (∀ k, k ∈ chart.1 ↔ is_Some (module_metrics !! k))
  ∧ (∀ i k v, chart.1 !! i = Some k → chart.2 !! i = Some v →
       ∃ m, module_metrics !! k = Some m ∧ total_churn m = Some v)
  ∧ length chart.1 = size module_metrics
  ∧ length chart.2 = size module_metrics
  ∧ sorted_by (λ a b : Z, (b ≤ a)%Z) chart.2
  ∧ sum_with id chart.2 = sum_with rec_churn file_churn.
Proof.
  intros module_metrics chart. subst chart. unfold plot_modules.
  cbn [fst snd].
  destruct (aggregate_churn_items_order_facts file_churn)
    as ((_ & Hmap) & _ & _ & Hnodup).
  set (d := (aggregate_churn_items file_churn).2) in *.
  fold module_metrics in Hmap.
  pose proof (sorted_desc_perm d) as Hperm.
  assert ((sorted_desc d).*1 ≡ₚ d.*1) as Hkeys by (by rewrite Hperm).
  split_and!.
  - by rewrite Hkeys.
  - intros k. rewrite Hkeys, <- Hmap. split.
    + intros ([k' m] & -> & Hin)%list_elem_of_fmap. exists m.
      by apply elem_of_list_to_map.
    + intros [m Hm]. apply elem_of_list_to_map in Hm; [|done].
      apply list_elem_of_fmap. by exists (k, m).
  - intros i k v Hk Hv.
    apply list_lookup_fmap_Some in Hk as ([k' m] & -> & Hi).
    rewrite list_lookup_fmap, Hi in Hv. injection Hv as <-.
    exists m. cbn [fst].
    assert ((k', m) ∈ d) as Hin
      by (rewrite <- Hperm; by eapply list_elem_of_lookup_2).
    apply elem_of_list_to_map in Hin; [|done]. rewrite Hmap in Hin.
    split; [done|]. subst module_metrics.
    rewrite aggregate_churn_unfold in Hin. cbn [snd] in Hin.
    rewrite aggregated_lookup in Hin. case_decide; [done|].
    by injection Hin as <-.
  - rewrite (Permutation_length Hkeys), length_fmap, <- Hmap.
    by rewrite map_size_list_to_map.
  - rewrite length_fmap.
    rewrite (Permutation_length Hperm), <- Hmap.
    by rewrite map_size_list_to_map.
  - apply (sorted_by_fmap churn_key desc (λ a b : Z, (b ≤ a)%Z));
      [by intros x y | apply sorted_desc_sorted].
  - transitivity (sum_with churn_key (sorted_desc d)).
    { generalize (sorted_desc d). intros l.
      induction l as [|x l IH]; [done|].
      rewrite fmap_cons. cbn [sum_with foldr]. f_equal. exact IH. }
    rewrite (sum_with_perm _ _ _ Hperm).
    change churn_key with (λ x : string * metrics, total x.2).
    rewrite <- map_sum_list_to_map by done. rewrite Hmap.
    subst module_metrics. rewrite aggregate_churn_unfold. cbn [snd].
    apply map_sum_total_tally.
Qed.

(** ** What the parser returns *)

Lemma rstrip_fixed_suffix (a b : string) :
  Str.rstrip (a +:+ b) = a +:+ b → b ≠ "" → Str.rstrip b = b.
Proof.
  induction a as [|c a IH]; [by intros ? _|].
  change (String c a +:+ b) with (String c (a +:+ b)). cbn [Str.rstrip].
  intros Hfix Hb.
  destruct (Str.rstrip (a +:+ b)) as [|c' r] eqn:Hr.
  - destruct (Str.isspace c); [done|]. injection Hfix as Hab.
    destruct a as [|c0 a].
    + change ("" +:+ b) with b in Hab. by destruct Hb.
    + change (String c0 a +:+ b) with (String c0 (a +:+ b)) in Hab.
      discriminate Hab.
  - injection Hfix as Hab. by apply IH.
Qed.

Lemma rstrip_cons (c : ascii) (s : string) :
  Str.rstrip (String c s)
  = match Str.rstrip s with
    | "" => if Str.isspace c then "" else String c ""
    | r => String c r
    end.
Proof. done. Qed.

Lemma rstrip_idemp (s : string) : Str.rstrip (Str.rstrip s) = Str.rstrip s.
Proof.
  induction s as [|c s IH]; [done|]. rewrite rstrip_cons.
  destruct (Str.rstrip s) as [|c' r] eqn:Hr.
  - destruct (Str.isspace c) eqn:Hc; [done|].
    rewrite rstrip_cons. cbn [Str.rstrip]. by rewrite Hc.
  - rewrite rstrip_cons. by rewrite IH.
Qed.

Lemma rstrip_strip (s : string) : Str.rstrip (Str.strip s) = Str.strip s.
Proof. apply rstrip_idemp. Qed.

Lemma string_app_assoc (a b c : string) : (a +:+ b) +:+ c = a +:+ (b +:+ c).
Proof.
  induction a as [|x a IH]; [done|].
  change (String x a +:+ b) with (String x (a +:+ b)).
  change (String x (a +:+ b) +:+ c) with (String x ((a +:+ b) +:+ c)).
  by rewrite IH.
Qed.

(** The path of an accepted line is not empty, holds no tab and does not
    end with white space. *)
Lemma accepted_path line r :
  accepted line r →
  rec_path r ≠ "" ∧ has_char TAB (rec_path r) = false
  ∧ Str.rstrip (rec_path r) = rec_path r.
Proof.
  intros (_ & _ & f1 & f2 & Hline & _ & _ & Hp & _).
  pose proof (rstrip_strip line) as Hfix. cbv zeta in Hline.
  rewrite Hline in Hfix.
  assert (rec_path r ≠ "") as Hne.
  { intros Hempty. rewrite Hempty in Hfix.
    change (f1 +:+ String TAB (f2 +:+ String TAB ""))
      with (f1 +:+ (String TAB "" +:+ (f2 +:+ String TAB ""))) in Hfix.
    rewrite <- !string_app_assoc in Hfix.
    by apply rstrip_fixed_suffix in Hfix. }
  split_and!; [done..|].
  change (f1 +:+ String TAB (f2 +:+ String TAB (rec_path r)))
    with (f1 +:+ (String TAB "" +:+ (f2 +:+ (String TAB "" +:+ rec_path r))))
    in Hfix.
  rewrite <- !string_app_assoc in Hfix.
  by apply rstrip_fixed_suffix in Hfix.
Qed.

Lemma length_omap_le {A B} (f : A → option B) (l : list A) :
  (length (omap f l) ≤ length l)%nat.
Proof.
  induction l as [|x l IH]; [done|]. cbn [omap list_omap].
  fold (omap f l). destruct (f x); cbn [length]; lia.
Qed.

(** X4. The parser returns no more records than there are lines, and the
    path of every record is not empty, holds no tab and does not end with
    white space. *)
Theorem parse_git_numstat_paths (lines : list string)
    (file_churn : list churn_record) (r : churn_record) :
  parse_git_numstat lines = Ok file_churn → r ∈ file_churn →
  (length file_churn ≤ length lines)%nat
  ∧ rec_path r ≠ ""
  ∧ has_char TAB (rec_path r) = false
  ∧ Str.rstrip (rec_path r) = rec_path r.
Proof.
  unfold parse_git_numstat. rewrite parse_lines_spec. cbn [app].
  intros [= <-] Hr. split; [apply length_omap_le|].
  apply list_elem_of_omap in Hr as (line & _ & Hline).
  apply record_of_line_accepted in Hline. by eapply accepted_path.
Qed.

Lemma parse_git_numstat_paths_witness :
  (length [(3, 1, "src/a b.py")]
   ≤ length ["commit 9c1";
             "3" +:+ String TAB ("1" +:+ String TAB "src/a b.py  ")])%nat
  ∧ rec_path (3, 1, "src/a b.py") ≠ ""
  ∧ has_char TAB (rec_path (3, 1, "src/a b.py")) = false
  ∧ Str.rstrip (rec_path (3, 1, "src/a b.py")) = rec_path (3, 1, "src/a b.py").
Proof.
  apply (parse_git_numstat_paths
           ["commit 9c1"; "3" +:+ String TAB ("1" +:+ String TAB "src/a b.py  ")]
           [(3, 1, "src/a b.py")] (3, 1, "src/a b.py")).
  - reflexivity.
  - left.
Defined.

(** X5. Parsing and aggregating two pieces of a log and merging the
    results field by field gives what the whole log gives. *)
Theorem parse_and_aggregate_in_shards (lines1 lines2 : list string) :
  ∃ r1 r2,
    parse_git_numstat lines1 = Ok r1
    ∧ parse_git_numstat lines2 = Ok r2
    ∧ parse_git_numstat (lines1 ++ lines2) = Ok (r1 ++ r2)
    ∧ (aggregate_churn (r1 ++ r2)).1
      = merge_shards (aggregate_churn r1).1 (aggregate_churn r2).1
    ∧ (aggregate_churn (r1 ++ r2)).2
      = merge_shards (aggregate_churn r1).2 (aggregate_churn r2).2.
Proof.
  exists (omap record_of_line lines1), (omap record_of_line lines2).
  unfold parse_git_numstat. rewrite !parse_lines_spec. cbn [app].
  rewrite omap_app, !aggregate_churn_unfold. cbn [fst snd].
  by rewrite !aggregated_app.
Qed.

(** X21. The first chart of a run draws [top_n] files, or all of them
    when there are fewer; the files drawn are distinct, and each bar has
    the total churn of its file. *)
Theorem plot_top_files_of_aggregation
    (file_churn : list churn_record) (top_n : nat) :
  let file_metrics := (aggregate_churn file_churn).1 in
  let chart := plot_top_files (aggregate_churn_items file_churn).1 top_n in
  NoDup chart.1
  ∧ length chart.1 = (top_n `min` size file_metrics)%nat
  ∧ length chart.2 = (top_n `min` size file_metrics)%nat
  ∧ (∀ i path v, chart.1 !! i = Some path → chart.2 !! i = Some v →
       ∃ m, file_metrics !! path = Some m ∧ total_churn m = Some v).
Proof.
  intros file_metrics chart. subst chart. unfold plot_top_files.
  cbn [fst snd].
  destruct (aggregate_churn_items_order_facts file_churn)
    as ((Hmap & _) & _ & Hnodup & _).
  set (d := (aggregate_churn_items file_churn).1) in *.
  fold file_metrics in Hmap.
  pose proof (sorted_desc_perm d) as Hperm.
  assert (NoDup (sorted_desc d).*1) as Hsorted by (by rewrite Hperm).
  assert (size file_metrics = length (sorted_desc d)) as Hsize.
  { rewrite <- Hmap, map_size_list_to_map by done.
    by rewrite (Permutation_length Hperm). }
  split_and!.
  - rewrite reverse_Permutation, fmap_take.
    rewrite <- (take_drop top_n (sorted_desc d).*1) in Hsorted.
    by apply NoDup_app in Hsorted as [? _].
  - by rewrite length_reverse, length_fmap, length_take, Hsize.
  - by rewrite length_reverse, length_fmap, length_take, Hsize.
  - intros i path v Hpath Hv.
    rewrite <- fmap_reverse in Hpath. rewrite <- fmap_reverse in Hv.
    apply list_lookup_fmap_Some in Hpath as ([k m] & -> & Hi).
    rewrite list_lookup_fmap, Hi in Hv. injection Hv as <-.
    exists m. cbn [fst].
    assert ((k, m) ∈ d) as Hin.
    { rewrite <- Hperm. apply list_elem_of_lookup_2 in Hi.
      rewrite elem_of_reverse in Hi.
      apply elem_of_take in Hi as (j & Hj & _).
      by eapply list_elem_of_lookup_2. }
    apply elem_of_list_to_map in Hin; [|done]. rewrite Hmap in Hin.
    split; [done|]. subst file_metrics.
    rewrite aggregate_churn_unfold in Hin. cbn [fst] in Hin.
    rewrite aggregated_lookup in Hin. case_decide; [done|].
    by injection Hin as <-.
Qed.

(** ** Module keys *)

Lemma split_parts_no_sep c s :
  Forall (λ x, has_char c x = false) (Str.split c s).
Proof.
  induction s as [|a s IH]; cbn [Str.split].
  - by constructor.
  - destruct (Ascii.eqb a c) eqn:Hac; [by constructor|].
    destruct (Str.split c s) as [|w ws]; [constructor; [|done]|].
    + cbn. by rewrite Hac.
    + apply Forall_cons in IH as [Hw Hws]. constructor; [|done].
      cbn. by rewrite Hac.
Qed.

Lemma parse_components p : Forall component (Path.tail (Path.parse p)).
Proof.
  unfold Path.parse. case_decide; [constructor|].
  destruct (Path.splitroot p) as [r rel]. cbn [Path.tail].
  apply Forall_forall. intros x [[Hne Hdot] Hx]%list_elem_of_filter.
  split_and!; [done..|].
  pose proof (split_parts_no_sep "/" rel) as Hall.
  by eapply Forall_forall in Hall.
Qed.

Lemma parse_root p :
  Path.root (Path.parse p) = "" ∨ Path.root (Path.parse p) = "/"
  ∨ Path.root (Path.parse p) = "//".
Proof.
  unfold Path.parse. case_decide; [by left|].
  destruct (Path.splitroot p) as [r rel] eqn:Hsplit. cbn [Path.root].
  unfold Path.splitroot in Hsplit.
  repeat (case_match; simplify_eq; auto).
Qed.

Lemma join_components_proper cs :
  cs ≠ [] → Forall component cs →
  Str.join "/" cs ≠ "" ∧ Str.join "/" cs ≠ ".".
Proof.
  intros Hne Hall. destruct cs as [|x cs]; [done|].
  apply Forall_cons in Hall as [(Hx & Hdot & _) _].
  destruct cs as [|y cs]; [done|].
  change (Str.join "/" (x :: y :: cs))
    with (x +:+ String "/" (Str.join "/" (y :: cs))).
  destruct x as [|a x]; [done|].
  change (String a x +:+ ?s) with (String a (x +:+ s)).
  split; [done|]. intros Heq. injection Heq as _ Hrest. by destruct x.
Qed.

(** X6. A module key is never the empty string, and it is the sentinel
    ["."] exactly for the paths without root and with at most one
    component. *)
Theorem module_of_never_empty (path : string) :
  module_of path ≠ ""
  ∧ (module_of path = "."
     ↔ Path.root (Path.parse path) = ""
       ∧ (length (Path.tail (Path.parse path)) ≤ 1)%nat).
Proof.
  unfold module_of. change (Path.parse ".") with (Path.mk "" []).
  pose proof (parse_components path) as Hcomp.
  pose proof (parse_root path) as Hroot.
  destruct (Path.parse path) as [root tail]. cbn [Path.root Path.tail] in *.
  unfold Path.parent. cbn [Path.root Path.tail].
  destruct tail as [|c tail].
  - case_decide as Hp.
    + unfold Path.as_posix. cbn [Path.root Path.tail].
      assert (root ≠ "") as Hr by (intros ->; by apply Hp).
      rewrite decide_True by done.
      destruct Hroot as [-> | [-> | ->]]; [done| |].
      * split; [done|]. split; [done|]. by intros [? _].
      * split; [done|]. split; [done|]. by intros [? _].
    + split; [done|]. split; [|done]. intros _.
      injection Hp as ->. cbn. split; [done|lia].
  - assert (Forall component (removelast (c :: tail))) as Hcomp'.
    { apply Forall_forall. intros x Hx. rewrite Forall_forall in Hcomp.
      apply Hcomp. clear -Hx. revert c Hx.
      induction tail as [|d tail IH]; intros c Hx;
        [by apply not_elem_of_nil in Hx|].
      change (removelast (c :: d :: tail)) with (c :: removelast (d :: tail))
        in Hx.
      apply elem_of_cons in Hx as [->|Hx]; [left | right; by apply IH]. }
    case_decide as Hp.
    + unfold Path.as_posix. cbn [Path.root Path.tail].
      assert (¬ (root = "" ∧ (length (c :: tail) ≤ 1)%nat)) as Hno.
      { intros [-> Hlen]. apply Hp. destruct tail; [done | cbn in Hlen; lia]. }
      destruct (decide (root ≠ "")) as [Hr|Hr].
      * destruct Hroot as [-> | [-> | ->]]; [done| |];
          (split; [by destruct (Str.join "/" (removelast (c :: tail)))|]);
          (split; [|by intros [? _]]);
          by destruct (Str.join "/" (removelast (c :: tail))).
      * apply dec_stable in Hr. subst root.
        assert (removelast (c :: tail) ≠ []) as Hne.
        { intros Hnil. apply Hp. by rewrite Hnil. }
        destruct (join_components_proper _ Hne Hcomp') as [Hj1 Hj2].
        destruct (removelast (c :: tail)) as [|e es] eqn:Hrl; [done|].
        split; [done|]. split; [done|]. intros Hlen. by destruct Hno.
    + injection Hp as -> Hnil.
      split; [done|]. split; [|done]. intros _. split; [done|].
      destruct tail; [cbn; lia | done].
Qed.

(** ** Sizes and signs of the aggregation *)

Lemma first_seen_elem_of seen ks k :
  k ∈ first_seen seen ks ↔ k ∈ ks ∧ k ∉ seen.
Proof.
  revert seen. induction ks as [|k0 ks IH]; intros seen; cbn [first_seen].
  - split; [by intros ?%not_elem_of_nil | by intros [?%not_elem_of_nil _]].
  - destruct (decide (k0 ∈ seen)) as [H0|H0].
    + rewrite IH, elem_of_cons. split; [intros [? ?]; by auto|].
      intros [[->|?] ?]; [done | by split].
    + rewrite !elem_of_cons, IH, elem_of_cons. split.
      * intros [->|[? Hk]]; [by auto|]. split; [by right|].
        intros ?. apply Hk. by right.
      * intros [[->|?] Hk]; [by left|].
        destruct (decide (k = k0)) as [->|Hne]; [by left|].
        right. split; [done|]. by intros [?|?].
Qed.

Lemma first_seen_length seen ks : (length (first_seen seen ks) ≤ length ks)%nat.
Proof.
  revert seen. induction ks as [|k ks IH]; intros seen; cbn [first_seen].
  - done.
  - destruct (decide (k ∈ seen)) as [Hk|Hk].
    + specialize (IH seen). cbn [length]. lia.
    + specialize (IH (k :: seen)). cbn [length]. lia.
Qed.

(** X7. There are no more modules than files and no more files than
    records, and the dicts are empty exactly when there is no record. *)
Theorem aggregate_churn_sizes (file_churn : list churn_record) :
  let file_metrics := (aggregate_churn file_churn).1 in
  let module_metrics := (aggregate_churn file_churn).2 in
  (size module_metrics ≤ size file_metrics)%nat
  ∧ (size file_metrics ≤ length file_churn)%nat
  ∧ (file_metrics = ∅ ↔ file_churn = [])
  ∧ (module_metrics = ∅ ↔ file_churn = []).
Proof.
  intros file_metrics module_metrics.
  destruct (aggregate_churn_items_order_facts file_churn)
    as ((Hf & Hm) & (Hfk & Hmk) & Hfn & Hmn).
  fold file_metrics in Hf. fold module_metrics in Hm.
  assert (size file_metrics = length (first_seen [] (rec_path <$> file_churn)))
    as Hsf.
  { rewrite <- Hf, map_size_list_to_map by done.
    by rewrite <- Hfk, length_fmap. }
  assert (size module_metrics
          = length (first_seen []
                      ((λ r, module_of (rec_path r)) <$> file_churn))) as Hsm.
  { rewrite <- Hm, map_size_list_to_map by done.
    by rewrite <- Hmk, length_fmap. }
  split_and!.
  - rewrite Hsf, Hsm.
    rewrite <- (length_fmap module_of (first_seen [] (rec_path <$> file_churn))).
    apply submseteq_length, NoDup_submseteq; [apply first_seen_NoDup|].
    intros k [Hk _]%first_seen_elem_of.
    apply list_elem_of_fmap in Hk as (r & -> & Hr).
    apply list_elem_of_fmap. exists (rec_path r). split; [done|].
    apply first_seen_elem_of. split; [|apply not_elem_of_nil].
    apply list_elem_of_fmap. by exists r.
  - rewrite Hsf. etrans; [apply first_seen_length|]. by rewrite length_fmap.
  - rewrite <- map_size_empty_iff, Hsf. destruct file_churn as [|r l]; [done|].
    cbn. split; [done | discriminate].
  - rewrite <- map_size_empty_iff, Hsm. destruct file_churn as [|r l]; [done|].
    cbn. split; [done | discriminate].
Qed.

Lemma sum_with_nonneg {A} (f : A → Z) (l : list A) :
  Forall (λ x, 0 ≤ f x) l → 0 ≤ sum_with f l.
Proof. induction 1; unfold sum_with in *; cbn [foldr]; lia. Qed.

Lemma sum_with_records_nonneg key k l :
  Forall nonneg l →
  0 ≤ sum_with rec_added (records_of key k l)
  ∧ 0 ≤ sum_with rec_removed (records_of key k l)
  ∧ 0 ≤ sum_with rec_churn (records_of key k l).
Proof.
  intros Hall.
  assert (Forall nonneg (records_of key k l)) as Hk.
  { apply Forall_forall. intros r [_ Hr]%list_elem_of_filter.
    by eapply Forall_forall in Hall. }
  split_and!; apply sum_with_nonneg;
    (eapply Forall_impl; [exact Hk|]); intros r [? ?]; unfold rec_churn; lia.
Qed.

Lemma aggregated_monotone key l l' k m :
  Forall nonneg l' →
  (set_total <$> tally key l ∅) !! k = Some m →
  ∃ m', (set_total <$> tally key (l ++ l') ∅) !! k = Some m'
        ∧ added m ≤ added m' ∧ removed m ≤ removed m' ∧ total m ≤ total m'.
Proof.
  intros Hall Hm. rewrite aggregated_app. unfold merge_shards.
  rewrite lookup_union_with, Hm.
  destruct (sum_with_records_nonneg key k l' Hall) as (Ha & Hr & Ht).
  pose proof (aggregated_lookup key l k) as Hl. rewrite Hm in Hl.
  case_decide; [done|]. injection Hl as ->.
  rewrite aggregated_lookup. case_decide.
  - eexists. split; [done|]. lia.
  - eexists. split; [done|]. unfold total. cbn. lia.
Qed.

(** X8. Records without negative counts only add: an entry of either
    dict is still there after more records are aggregated, and none of its
    three counts has decreased. *)
Theorem aggregate_churn_accumulates
    (l l' : list churn_record) (path module : string) (mf mm : metrics) :
  Forall nonneg l' →
  (aggregate_churn l).1 !! path = Some mf →
  (aggregate_churn l).2 !! module = Some mm →
  (∃ m', (aggregate_churn (l ++ l')).1 !! path = Some m'
         ∧ added mf ≤ added m' ∧ removed mf ≤ removed m'
         ∧ total mf ≤ total m')%Z
  ∧ (∃ m', (aggregate_churn (l ++ l')).2 !! module = Some m'
           ∧ added mm ≤ added m' ∧ removed mm ≤ removed m'
           ∧ total mm ≤ total m')%Z.
Proof.
  intros Hall. rewrite !aggregate_churn_unfold. cbn [fst snd].
  intros Hf Hm. split; by apply aggregated_monotone.
Qed.

Lemma aggregate_churn_accumulates_witness :
  (∃ m', (aggregate_churn ([(1, 2, "a/x.py")]
                           ++ [(4, 0, "a/x.py"); (2, 2, "b.py")])).1
           !! "a/x.py" = Some m'
         ∧ added (Metrics 1 2 (Some 3)) ≤ added m'
         ∧ removed (Metrics 1 2 (Some 3)) ≤ removed m'
         ∧ total (Metrics 1 2 (Some 3)) ≤ total m')%Z
  ∧ (∃ m', (aggregate_churn ([(1, 2, "a/x.py")]
                             ++ [(4, 0, "a/x.py"); (2, 2, "b.py")])).2
             !! "a" = Some m'
           ∧ added (Metrics 1 2 (Some 3)) ≤ added m'
           ∧ removed (Metrics 1 2 (Some 3)) ≤ removed m'
           ∧ total (Metrics 1 2 (Some 3)) ≤ total m')%Z.
Proof.
  apply (aggregate_churn_accumulates
           [(1, 2, "a/x.py")] [(4, 0, "a/x.py"); (2, 2, "b.py")]
           "a/x.py" "a" (Metrics 1 2 (Some 3)) (Metrics 1 2 (Some 3))).
  - repeat constructor; cbn; lia.
  - reflexivity.
  - reflexivity.
Defined.

(** X9. Every entry of either dict has [total_churn] set to the sum of
    its two counts, whatever the records are; when no record has a
    negative count, no count of an entry is negative and the total is at
    least each of them. *)
Theorem aggregate_churn_entries_nonneg
    (file_churn : list churn_record) (k : string) (m : metrics) :
  (aggregate_churn file_churn).1 !! k = Some m
  ∨ (aggregate_churn file_churn).2 !! k = Some m →
  total_churn m = Some (added m + removed m)
  ∧ (Forall nonneg file_churn →
     0 ≤ added m ∧ 0 ≤ removed m ∧ added m ≤ total m ∧ removed m ≤ total m).
Proof.
  rewrite aggregate_churn_unfold. cbn [fst snd].
  assert (∀ key, (set_total <$> tally key file_churn ∅) !! k = Some m →
                 total_churn m = Some (added m + removed m)
                 ∧ (Forall nonneg file_churn →
                    0 ≤ added m ∧ 0 ≤ removed m
                    ∧ added m ≤ total m ∧ removed m ≤ total m)) as Hkey.
  { intros key. rewrite aggregated_lookup. case_decide; [done|].
    intros [= <-]. unfold total, rec_churn. cbn. rewrite sum_with_plus.
    split; [done|]. intros Hall.
    destruct (sum_with_records_nonneg key k file_churn Hall) as (Ha & Hr & _).
    lia. }
  intros [Hm|Hm]; by eapply Hkey.
Qed.

Lemma aggregate_churn_entries_nonneg_witness :
  total_churn (Metrics 5 2 (Some 7))
  = Some (added (Metrics 5 2 (Some 7)) + removed (Metrics 5 2 (Some 7)))
  ∧ 0 ≤ added (Metrics 5 2 (Some 7)) ∧ 0 ≤ removed (Metrics 5 2 (Some 7))
  ∧ added (Metrics 5 2 (Some 7)) ≤ total (Metrics 5 2 (Some 7))
  ∧ removed (Metrics 5 2 (Some 7)) ≤ total (Metrics 5 2 (Some 7)).
Proof.
  destruct (aggregate_churn_entries_nonneg
              [(1, 2, "a/x.py"); (4, 0, "a/x.py"); (2, 2, "b.py")] "a/x.py"
              (Metrics 5 2 (Some 7))) as [Htotal Hsigns].
  - left. reflexivity.
  - split; [exact Htotal|]. apply Hsigns. repeat constructor; cbn; lia.
Defined.

(** ** The whole run *)

(** X10. A run that succeeds was given exit code 0, and the totals of
    its two dicts both equal the churn of the records of the accepted
    lines of the standard output. *)
Theorem main_totals (subprocess_run : list string → CompletedProcess)
    (repo : string) (file_metrics module_metrics : gmap string metrics) :
  main subprocess_run repo = Ok (file_metrics, module_metrics) →
  let result := subprocess_run (git_log_cmd repo) in
  let records := omap record_of_line (Str.splitlines (stdout result)) in
  returncode result = 0
  ∧ (file_metrics, module_metrics) = aggregate_churn records
  ∧ map_sum total file_metrics = sum_with rec_churn records
  ∧ map_sum total module_metrics = sum_with rec_churn records.
Proof.
  unfold main, run_git_log, parse_git_numstat. cbv zeta.
  destruct (decide (returncode (subprocess_run (git_log_cmd repo)) ≠ 0))
    as [Hne|Heq]; cbn [bind]; [done|].
  rewrite parse_lines_spec. cbn [bind app].
  rewrite aggregate_churn_unfold. intros [= <- <-].
  apply dec_stable in Heq. by rewrite !map_sum_total_tally.
Qed.

Lemma main_totals_witness :
  let run := λ _ : list string,
    {| returncode := 0;
       stdout :=
         "commit 1f"
         +:+ String "010" ("2" +:+ String TAB ("3" +:+ String TAB "a/x.py"));
       stderr := "" |} in
  let result := run (git_log_cmd "repo") in
  let records := omap record_of_line (Str.splitlines (stdout result)) in
  returncode result = 0
  ∧ (<["a/x.py" := Metrics 2 3 (Some 5)]> ∅, <["a" := Metrics 2 3 (Some 5)]> ∅)
    = aggregate_churn records
  ∧ map_sum total (<["a/x.py" := Metrics 2 3 (Some 5)]> ∅) = sum_with rec_churn records
  ∧ map_sum total (<["a" := Metrics 2 3 (Some 5)]> ∅) = sum_with rec_churn records.
Proof.
  intros run.
  apply (main_totals run "repo" (<["a/x.py" := Metrics 2 3 (Some 5)]> ∅)
           (<["a" := Metrics 2 3 (Some 5)]> ∅)).
  reflexivity.
Defined.

(** * Further properties of the forecasting script *)

Local Open Scope Q_scope.

(** ** The [naive] and [ewma] branches *)

(** X11. The [naive] branch raises [IndexError] exactly on an empty
    series; otherwise it returns [horizon] values, each the last value of
    the series. *)
Theorem naive_repeats_last_value {A : Type} `{Arith A}
    (horizon : nat) (y : list A) :
  (naive horizon y = Raise IndexError ↔ y = [])
  ∧ (∀ rest v, y = (rest ++ [v])%list → naive horizon y = Ok (replicate horizon v))
  ∧ (∀ forecast, naive horizon y = Ok forecast →
       length forecast = horizon ∧ ∀ v, v ∈ forecast → last y = Some v).
Proof.
  unfold naive. split_and!.
  - destruct y as [|x y] using rev_ind; [done|]. rewrite last_snoc.
    split; [done|]. intros Heq. by destruct y.
  - intros rest v ->. by rewrite last_snoc.
  - intros forecast. destruct (last y) as [v|]; [|done]. intros [= <-].
    split; [apply length_replicate|].
    by intros v' ->%elem_of_replicate_inv.
Qed.

(** X12. The [ewma] branch raises [IndexError] exactly when the series is
    empty and a forecast is asked for; in every other case it returns
    [horizon] values. *)
Theorem ewma_raises_on_empty {A : Type} `{Arith A}
    (alpha : A) (horizon : nat) (y : list A) :
  (ewma alpha horizon y = Raise IndexError ↔ y = [] ∧ horizon ≠ 0%nat)
  ∧ (¬ (y = [] ∧ horizon ≠ 0%nat) →
     ∃ forecast, ewma alpha horizon y = Ok forecast
                 ∧ length forecast = horizon).
Proof.
  unfold ewma. destruct y as [|first rest].
  - destruct horizon as [|h]; cbn [ewma_loop].
    + split; [split; [done | by intros [_ ?]]|]. intros _. by exists [].
    + split; [done|]. intros Hno. by destruct Hno.
  - rewrite ewma_loop_emit. cbn [app]. split.
    + split; [done | by intros [? _]].
    + intros _. eexists. split; [done|]. apply ewma_emit_length.
Qed.

(** ** The weeks of the forecast *)

Lemma rollforward_sunday_spec (day : Z) :
  weekday (rollforward_sunday day) = 6%Z
  ∧ (day ≤ rollforward_sunday day ≤ day + 6)%Z
  ∧ (weekday day = 6%Z ↔ rollforward_sunday day = day).
Proof.
  unfold rollforward_sunday, weekday.
  pose proof (Z.mod_pos_bound (day + 6) 7 eq_refl) as Hw.
  pose proof (Z.div_mod (day + 6) 7 ltac:(done)) as Hdiv.
  split_and!; [|lia..].
  replace (day + (6 - (day + 6) mod 7) + 6)%Z
    with (6 + ((day + 6) / 7) * 7)%Z by lia.
  by rewrite Z.mod_add.
Qed.

(** X18. The weeks of the forecast exist exactly when there is a
    historical week; there are [horizon] of them, all Sundays, seven days
    apart, and the first one comes 7 to 13 days after the last historical
    week: exactly 7 days after it only when that week starts on a
    Sunday. *)
Theorem future_weeks_are_sundays (week_start : list Z) (horizon : nat) :
  (future_weeks week_start horizon = Raise IndexError ↔ week_start = [])
  ∧ (∀ rest last_week, week_start = (rest ++ [last_week])%list →
     ∃ weeks, future_weeks week_start horizon = Ok weeks
              ∧ length weeks = horizon
              ∧ ∀ (i : nat) day, weeks !! i = Some day →
                  weekday day = 6%Z
                  ∧ (last_week + 7 * (Z.of_nat i + 1) ≤ day
                     ≤ last_week + 7 * (Z.of_nat i + 1) + 6)%Z
                  ∧ (weekday last_week = 6%Z
                     ↔ day = (last_week + 7 * (Z.of_nat i + 1))%Z)
                  ∧ (∀ next, weeks !! S i = Some next → next = (day + 7)%Z)).
Proof.
  unfold future_weeks. split.
  - destruct week_start as [|d l] using rev_ind; [done|].
    rewrite last_snoc. split; [done|]. intros Heq. by destruct l.
  - intros rest last_week ->. rewrite last_snoc. eexists. split; [done|].
    split; [by rewrite length_fmap, length_seq|].
    intros i day Hi. apply list_lookup_fmap_Some in Hi as (j & -> & Hj).
    apply lookup_seq in Hj as [-> Hlt]. cbn [Nat.add].
    destruct (rollforward_sunday_spec (last_week + 7)) as (Hsun & Hrange & Hiff).
    assert (weekday (last_week + 7) = weekday last_week) as Hshift.
    { unfold weekday.
      replace (last_week + 7 + 6)%Z with (last_week + 6 + 1 * 7)%Z by lia.
      by rewrite Z.mod_add. }
    rewrite Hshift in Hiff.
    split_and!.
    + unfold weekday in *.
      replace (rollforward_sunday (last_week + 7) + 7 * Z.of_nat i + 6)%Z
        with (rollforward_sunday (last_week + 7) + 6 + Z.of_nat i * 7)%Z
        by lia.
      by rewrite Z.mod_add.
    + lia.
    + lia.
    + rewrite Hiff. lia.
    + intros next Hnext.
      apply list_lookup_fmap_Some in Hnext as (j & -> & Hj).
      apply lookup_seq in Hj as [-> _]. cbn [Nat.add]. lia.
Qed.

(** ** What the column detection leaves behind *)

Local Close Scope Q_scope.

Lemma rename_lookup old new (columns : list string) i c :
  columns !! i = Some c →
  rename old new columns !! i = Some (if decide (c = old) then new else c).
Proof. intros Hc. unfold rename. by rewrite list_lookup_fmap, Hc. Qed.

(** X20. The detection stops for want of a defect column exactly when no
    column mentions "defect".  When it succeeds, the two chosen columns
    are distinct columns of the input that mention "defect" and "week";
    afterwards the columns are as many as before, every column named like
    the chosen defect column is called [defects_reported], every column
    named like the chosen week column is called [week_start], the others
    keep their names, and both new names are present. *)
Theorem detect_columns_outcome (columns : list string) :
  (detect_columns columns = inl NoDefectColumn
   ↔ ∀ c, c ∈ columns → mentions "defect" c = false)
  ∧ ∀ defect_col week_col columns',
      detect_columns columns = inr (defect_col, week_col, columns') →
      defect_col ∈ columns ∧ week_col ∈ columns ∧ defect_col ≠ week_col
      ∧ mentions "defect" defect_col = true
      ∧ mentions "week" week_col = true
      ∧ length columns' = length columns
      ∧ (∀ i c, columns !! i = Some c →
           columns' !! i
           = Some (if decide (c = defect_col) then "defects_reported"
                   else if decide (c = week_col) then "week_start" else c))
      ∧ "defects_reported" ∈ columns' ∧ "week_start" ∈ columns'.
Proof.
  unfold detect_columns. cbv zeta.
  destruct (filter (λ c, mentions "defect" c) columns) as [|d ds] eqn:Hd.
  - split; [|done]. split; [|done]. intros _ c Hc.
    destruct (mentions "defect" c) eqn:Hm; [|done].
    assert (c ∈ filter (λ c, mentions "defect" c) columns) as Hin
      by (apply list_elem_of_filter; by rewrite Hm).
    rewrite Hd in Hin. by apply not_elem_of_nil in Hin.
  - assert (d ∈ filter (λ c, mentions "defect" c) columns) as Hdin
      by (rewrite Hd; left).
    apply list_elem_of_filter in Hdin as [Hdm Hdin].
    split.
    { split; [by destruct (filter _ (rename d "defects_reported" columns))|].
      intros Hnone. specialize (Hnone d Hdin).
      rewrite Hnone in Hdm. done. }
    intros defect_col week_col columns'. rewrite filter_rename_week.
    destruct (filter (λ c, c ≠ d ∧ mentions "week" c) columns)
      as [|w ws] eqn:Hw; [done|].
    intros [= <- <- <-].
    assert (w ∈ filter (λ c, c ≠ d ∧ mentions "week" c) columns) as Hwin
      by (rewrite Hw; left).
    apply list_elem_of_filter in Hwin as [[Hwd Hwm] Hwin].
    assert (w ≠ "defects_reported") as Hwr.
    { intros ->. by vm_compute in Hwm. }
    assert (∀ i c, columns !! i = Some c →
              rename w "week_start" (rename d "defects_reported" columns)
                !! i
              = Some (if decide (c = d) then "defects_reported"
                      else if decide (c = w) then "week_start" else c))
      as Hlookup.
    { intros i c Hc.
      erewrite rename_lookup by (by apply rename_lookup).
      destruct (decide (c = d)) as [->|Hcd].
      - by rewrite decide_False.
      - done. }
    split_and!; try done.
    + by destruct (mentions "defect" d).
    + by destruct (mentions "week" w).
    + unfold rename. by rewrite !length_map.
    + apply list_elem_of_lookup in Hdin as [i Hi].
      apply list_elem_of_lookup. exists i.
      rewrite (Hlookup i d Hi). by rewrite decide_True.
    + apply list_elem_of_lookup in Hwin as [i Hi].
      apply list_elem_of_lookup. exists i.
      rewrite (Hlookup i w Hi). rewrite decide_False by done.
      by rewrite decide_True.
Qed.

(** ** The lines of the log *)

Lemma has_char_snoc c (s : string) (a : ascii) :
  has_char c (s +:+ String a "") = has_char c s || Ascii.eqb a c.
Proof.
  induction s as [|b s IH].
  - change ("" +:+ String a "") with (String a ""). cbn [has_char].
    by destruct (Ascii.eqb a c).
  - change (String b s +:+ String a "") with (String b (s +:+ String a "")).
    cbn [has_char]. by rewrite IH, orb_assoc.
Qed.

Lemma splitlines_from_no_breaks (n : nat) (cur s : string) :
  (String.length s < n)%nat →
  has_char "010" cur = false → has_char "013" cur = false →
  Forall (λ line, has_char "010" line = false ∧ has_char "013" line = false)
         (Str.splitlines_from cur s).
Proof.
  revert cur s. induction n as [|n IH]; intros cur s Hlen Hlf Hcr; [lia|].
  destruct s as [|a s]; cbn [Str.splitlines_from].
  - case_decide; by repeat constructor.
  - cbn [String.length] in Hlen.
    destruct (N_of_ascii a =? 13)%N eqn:Ha13.
    + destruct s as [|b s]; [by repeat constructor|].
      cbn [String.length] in Hlen.
      destruct (N_of_ascii b =? 10)%N;
        (constructor; [done|]); apply IH; cbn [String.length]; done || lia.
    + destruct (Str.islinebreak a) eqn:Hbreak.
      * constructor; [done|]. apply IH; done || lia.
      * apply IH; [lia|..]; rewrite has_char_snoc.
        -- rewrite Hlf. cbn [orb]. apply Ascii.eqb_neq. intros ->.
           by vm_compute in Hbreak.
        -- rewrite Hcr. cbn [orb]. apply Ascii.eqb_neq. intros ->.
           by vm_compute in Ha13.
Qed.

(** X22. When the git command exits with code 0, [run_git_log] returns
    lines none of which holds a line feed or a carriage return, and an
    empty output gives no line at all. *)
Theorem run_git_log_returns_lines
    (subprocess_run : list string → CompletedProcess) (repo : string)
    (lines : list string) :
  run_git_log subprocess_run repo = Ok lines →
  Forall (λ line, has_char "010" line = false ∧ has_char "013" line = false)
         lines
  ∧ (stdout (subprocess_run (git_log_cmd repo)) = "" → lines = []).
Proof.
  unfold run_git_log. cbv zeta. case_decide; [done|]. intros [= <-].
  split.
  - apply (splitlines_from_no_breaks
             (S (String.length (stdout (subprocess_run (git_log_cmd repo))))));
      [lia | done..].
  - by intros ->.
Qed.

Lemma run_git_log_returns_lines_witness :
  Forall (λ line, has_char "010" line = false ∧ has_char "013" line = false)
         ["commit 1f"; "2" +:+ String TAB ("3" +:+ String TAB "a/x.py")]
  ∧ ("commit 1f" +:+ String "010" ("2" +:+ String TAB ("3" +:+ String TAB "a/x.py"))
     = "" → ["commit 1f"; "2" +:+ String TAB ("3" +:+ String TAB "a/x.py")] = []).
Proof.
  apply (run_git_log_returns_lines
           (λ _, {| returncode := 0;
                    stdout :=
                      "commit 1f"
                      +:+ String "010" ("2" +:+ String TAB ("3" +:+ String TAB "a/x.py"));
                    stderr := "" |})
           "repo"
           ["commit 1f"; "2" +:+ String TAB ("3" +:+ String TAB "a/x.py")]).
  reflexivity.
Defined.

(** * Binary64 arithmetic

    The primitive floats are specified by the functions of [SpecFloat]
    (through [FloatAxioms]).  What is proved of them here is one fact:
    the rounded result of an addition or a division never passes a
    number of the format that the exact result does not pass.  The means
    of the [moving_average] branch are bounded with it. *)

Local Open Scope Q_scope.

(** ** Powers of two *)

Lemma bpow_pos e : 0 < bpow e.
Proof. apply Qpower_0_lt. reflexivity. Qed.

Lemma bpow_add e1 e2 : bpow (e1 + e2) == bpow e1 * bpow e2.
Proof. apply Qpower_plus. discriminate. Qed.

Lemma bpow_0 : bpow 0 == 1.
Proof. reflexivity. Qed.

Lemma bpow_1 : bpow 1 == 2.
Proof. reflexivity. Qed.

Lemma bpow_succ e : bpow (e + 1) == 2 * bpow e.
Proof. rewrite bpow_add, bpow_1. ring. Qed.

Lemma bpow_Z e : (0 <= e)%Z → bpow e == inject_Z (2 ^ e).
Proof. intros He. unfold bpow. by rewrite Zpower_Qpower. Qed.

Lemma bpow_le e1 e2 : (e1 <= e2)%Z → bpow e1 <= bpow e2.
Proof. intros He. apply Qpower_le_compat_l; [done|]. discriminate. Qed.

Lemma bpow_lt e1 e2 : (e1 < e2)%Z → bpow e1 < bpow e2.
Proof. intros He. apply Qpower_lt_compat_l; [done|]. reflexivity. Qed.

Lemma bpow_lt_inv e1 e2 : bpow e1 < bpow e2 → (e1 < e2)%Z.
Proof.
  intros Hlt. destruct (Z_lt_le_dec e1 e2) as [|Hle]; [done|].
  apply bpow_le in Hle. lra.
Qed.

(** Multiples of one power of two compare as their whole factors. *)
Lemma grid_le a b e : inject_Z a * bpow e <= inject_Z b * bpow e ↔ (a <= b)%Z.
Proof.
  pose proof (bpow_pos e) as Hp. rewrite Zle_Qle. split; intros Hle.
  - by apply Qmult_le_r in Hle.
  - by apply Qmult_le_r.
Qed.

Lemma grid_lt a b e : inject_Z a * bpow e < inject_Z b * bpow e ↔ (a < b)%Z.
Proof.
  pose proof (bpow_pos e) as Hp. rewrite Zlt_Qlt. split; intros Hlt.
  - by apply Qmult_lt_r in Hlt.
  - by apply Qmult_lt_r.
Qed.

Lemma grid_coarsen K e e' :
  (e' <= e)%Z → inject_Z K * bpow e == inject_Z (K * 2 ^ (e - e')) * bpow e'.
Proof.
  intros He. replace e with ((e - e') + e')%Z at 1 by lia.
  rewrite bpow_add, inject_Z_mult, bpow_Z by lia. ring.
Qed.

(** ** Rounding to the grid of a binary format *)

Section Rounding.
Variables prec emax : Z.
Hypothesis Hprec : (0 < prec)%Z.
Hypothesis Hemax : (prec < emax)%Z.

Local Notation "'emin'" := (SpecFloat.emin prec emax).
Local Notation "'fexp'" := (SpecFloat.fexp prec emax).

(** Shifting the record by one bit keeps the number it holds. *)
Lemma shr_1_holds mrs e v : holds mrs e v → holds (shr_1 mrs) (e + 1) v.
Proof.
  destruct mrs as [m r s]. unfold holds. cbn [shr_m shr_r shr_s].
  intros (Hm & Hlo & Hhi & Hex).
  pose proof (bpow_pos e) as Hp. pose proof (bpow_succ e) as Hs.
  rewrite inject_Z_plus in Hhi.
  destruct m as [|[p|p|]|p]; [| | | |lia]; cbn [shr_1 shr_m shr_r shr_s];
    rewrite ?inject_Z_plus, Hs.
  - change (inject_Z 1) with 1 in *. change (inject_Z 0) with 0 in *.
    split; [lia|]. split; [lra|]. split; [lra|].
    intros Hv. destruct Hex as [-> ->]; [lra | done].
  - change (inject_Z (Z.pos p~1)) with (inject_Z (2 * Z.pos p + 1)) in *.
    rewrite inject_Z_plus, inject_Z_mult in *.
    change (inject_Z 2) with 2 in *. change (inject_Z 1) with 1 in *.
    split; [lia|]. split; [lra|]. split; [lra|]. intros Hv. lra.
  - change (inject_Z (Z.pos p~0)) with (inject_Z (2 * Z.pos p)) in *.
    rewrite inject_Z_mult in *.
    change (inject_Z 2) with 2 in *. change (inject_Z 1) with 1 in *.
    split; [lia|]. split; [lra|]. split; [lra|].
    intros Hv. destruct Hex as [-> ->]; [lra | done].
  - change (inject_Z 1) with 1 in *. change (inject_Z 0) with 0 in *.
    split; [lia|]. split; [lra|]. split; [lra|]. intros Hv. lra.
Qed.

Lemma iter_pos_shr_1_holds p mrs e v :
  holds mrs e v → holds (SpecFloat.iter_pos shr_1 p mrs) (e + Z.pos p) v.
Proof.
  revert mrs e. induction p as [p IH|p IH|]; intros mrs e Hh;
    cbn [SpecFloat.iter_pos].
  - replace (e + Z.pos p~1)%Z with (e + 1 + Z.pos p + Z.pos p)%Z by lia.
    apply IH, IH. by apply shr_1_holds.
  - replace (e + Z.pos p~0)%Z with (e + Z.pos p + Z.pos p)%Z by lia.
    by apply IH, IH.
  - by apply shr_1_holds.
Qed.

Lemma shr_holds mrs e n v :
  holds mrs e v →
  holds (shr mrs e n).1 (shr mrs e n).2 v
  ∧ (shr mrs e n).2 = (e + Z.max n 0)%Z.
Proof.
  intros Hh. destruct n as [|p|p]; cbn [shr fst snd].
  - split; [done | lia].
  - split; [by apply iter_pos_shr_1_holds | lia].
  - split; [done | lia].
Qed.

Lemma shr_m_of_loc m l : shr_m (shr_record_of_loc m l) = m.
Proof. by destruct l as [|[]]. Qed.

(** The number of bits of a mantissa. *)
Lemma digits2_pos_size p : digits2_pos p = Pos.size p.
Proof. induction p as [p IH|p IH|]; cbn; by rewrite ?IH. Qed.

Lemma Zdigits2_bounds m :
  (0 < m)%Z → (2 ^ (Zdigits2 m - 1) <= m < 2 ^ Zdigits2 m)%Z.
Proof.
  destruct m as [|p|p]; [lia| |lia]. intros _. cbn [Zdigits2].
  rewrite digits2_pos_size.
  pose proof (Pos.size_gt p) as Hgt. pose proof (Pos.size_le p) as Hle.
  apply Pos2Z.pos_lt_pos in Hgt. apply Pos2Z.pos_le_pos in Hle.
  rewrite Pos2Z.inj_pow in Hgt, Hle.
  replace (Z.pos (Pos.size p)) with (Z.pos (Pos.size p) - 1 + 1)%Z in Hle
    by lia.
  rewrite Z.pow_add_r, Z.pow_1_r in Hle by lia. lia.
Qed.

Lemma Zdigits2_nonneg m : (0 <= Zdigits2 m)%Z.
Proof. by destruct m. Qed.

Lemma bpow_grid k e : (0 <= k)%Z → bpow (k + e) == inject_Z (2 ^ k) * bpow e.
Proof. intros Hk. by rewrite bpow_add, bpow_Z. Qed.

(** The shift to the exponent of the format: the record still holds the
    number, at the exponent of the format for its size. *)
Lemma shr_fexp_holds m e l v :
  holds (shr_record_of_loc m l) e v →
  (e <= fexp (Zdigits2 m + e))%Z →
  holds (shr_fexp prec emax m e l).1 (shr_fexp prec emax m e l).2 v
  ∧ (shr_fexp prec emax m e l).2 = fexp (Zdigits2 m + e)
  ∧ coarse prec emax (shr_fexp prec emax m e l).1 (shr_fexp prec emax m e l).2.
Proof.
  intros Hh He. unfold shr_fexp.
  destruct (shr_holds _ _ (fexp (Zdigits2 m + e) - e) _ Hh) as [Hh' He'].
  set (mrs' := (shr _ _ _).1) in *. set (e' := (shr _ _ _).2) in *.
  assert (e' = fexp (Zdigits2 m + e)) as Hfe by lia.
  split; [done|]. split; [done|].
  unfold coarse. unfold SpecFloat.fexp in Hfe, He.
  destruct (Z_le_gt_dec (Zdigits2 m + e - prec) emin) as [Hsub|Hnorm];
    [left; lia | right].
  assert (e' = Zdigits2 m + e - prec)%Z as Hnorm' by lia.
  split; [lia|].
  destruct Hh as (Hm & Hlo & _). rewrite shr_m_of_loc in Hm, Hlo.
  assert (0 < m)%Z as Hpos.
  { destruct (Z.eq_dec m 0%Z) as [->|]; [cbn in *; lia | lia]. }
  pose proof (Zdigits2_bounds m Hpos) as [Hd _].
  destruct Hh' as (Hm' & _ & Hhi' & _).
  assert (bpow (e' + prec - 1) <= v) as Hv.
  { replace (e' + prec - 1)%Z with (Zdigits2 m - 1 + e)%Z by lia.
    rewrite bpow_grid by lia. eapply Qle_trans; [|exact Hlo].
    by apply grid_le. }
  replace (e' + prec - 1)%Z with (prec - 1 + e')%Z in * by lia.
  rewrite bpow_grid in * by lia. apply grid_le.
  assert (inject_Z (2 ^ (prec - 1)) * bpow e'
          < inject_Z (shr_m mrs' + 1) * bpow e') as Hlt by lra.
  apply grid_lt in Hlt. lia.
Qed.

Lemma representable_below K e :
  (0 <= K < 2 ^ prec)%Z → inject_Z K * bpow e < bpow (prec + e).
Proof.
  intros HK. rewrite bpow_grid by lia. apply grid_lt. lia.
Qed.

(** A number of the format below the number held is not above the
    mantissa of the record. *)
Lemma floor_lower mrs e v L :
  holds mrs e v → coarse prec emax mrs e → representable prec emax L → L <= v →
  L <= inject_Z (shr_m mrs) * bpow e.
Proof.
  intros (Hm & Hlo & Hhi & _) Hc (K & eL & HL & HK & HeL) HLv.
  destruct (Z_le_gt_dec e eL) as [Hle|Hgt].
  - rewrite HL, (grid_coarsen K eL e) by done. apply grid_le.
    assert (inject_Z (K * 2 ^ (eL - e)) * bpow e
            < inject_Z (shr_m mrs + 1) * bpow e) as Hlt.
    { rewrite <- grid_coarsen by done. rewrite <- HL. lra. }
    apply grid_lt in Hlt. lia.
  - destruct Hc as [->|[_ Hc]]; [lia|].
    pose proof (representable_below K eL HK) as Hb.
    assert (bpow (prec + eL) <= bpow (e + prec - 1)) by (apply bpow_le; lia).
    lra.
Qed.

(** A number of the format above the number held is a multiple of the
    unit of the record. *)
Lemma on_grid mrs e v H :
  holds mrs e v → coarse prec emax mrs e → representable prec emax H → v <= H →
  ∃ K, H == inject_Z K * bpow e.
Proof.
  intros (Hm & Hlo & Hhi & _) Hc (K & eH & HH & HK & HeH) HvH.
  destruct (Z_le_gt_dec e eH) as [Hle|Hgt].
  - exists (K * 2 ^ (eH - e))%Z. by rewrite HH, (grid_coarsen K eH e).
  - exfalso. destruct Hc as [->|[_ Hc]]; [lia|].
    pose proof (representable_below K eH HK) as Hb.
    assert (bpow (prec + eH) <= bpow (e + prec - 1)) by (apply bpow_le; lia).
    lra.
Qed.

(** Rounding to nearest takes the mantissa or the next one, and the
    mantissa itself when nothing is left. *)
Lemma round_nearest_even_holds mrs e v :
  holds mrs e v →
  let m1 := round_nearest_even (shr_m mrs) (loc_of_shr_record mrs) in
  (shr_m mrs <= m1 <= shr_m mrs + 1)%Z
  ∧ (v == inject_Z (shr_m mrs) * bpow e → m1 = shr_m mrs).
Proof.
  intros (Hm & _ & _ & Hex). destruct mrs as [m r s].
  cbn [shr_m shr_r shr_s] in *. cbv zeta. split.
  - destruct r, s; cbn [loc_of_shr_record round_nearest_even];
      try destruct (Z.even m); lia.
  - intros Hv. by destruct (Hex Hv) as [-> ->].
Qed.

Lemma round_nearest_even_below mrs e v H :
  holds mrs e v → coarse prec emax mrs e → representable prec emax H → v <= H →
  inject_Z (round_nearest_even (shr_m mrs) (loc_of_shr_record mrs)) * bpow e
  <= H.
Proof.
  intros Hh Hc HH HvH.
  destruct (on_grid _ _ _ _ Hh Hc HH HvH) as [K HK].
  destruct (round_nearest_even_holds _ _ _ Hh) as [[_ Hm1] Hex].
  destruct Hh as (Hm & Hlo & Hhi & _).
  rewrite HK. apply grid_le.
  assert (inject_Z (shr_m mrs) * bpow e <= inject_Z K * bpow e) as Hle
    by (rewrite <- HK; lra).
  apply grid_le in Hle.
  destruct (Z.eq_dec (shr_m mrs) K) as [Heq|Hne]; [|lia].
  rewrite Hex; [lia|]. rewrite Heq in *. lra.
Qed.

Lemma coarse_next mrs e m1 :
  coarse prec emax mrs e → (shr_m mrs <= m1)%Z →
  (e <= fexp (Zdigits2 m1 + e))%Z.
Proof.
  intros Hc Hm1. unfold SpecFloat.fexp. destruct Hc as [->|[Hlt Hc]]; [lia|].
  replace (e + prec - 1)%Z with (prec - 1 + e)%Z in Hc by lia.
  rewrite bpow_grid in Hc by lia. apply grid_le in Hc.
  assert (0 < 2 ^ (prec - 1))%Z by (apply Z.pow_pos_nonneg; lia).
  destruct (Zdigits2_bounds m1) as [_ Hd]; [lia|].
  assert (2 ^ (prec - 1) < 2 ^ Zdigits2 m1)%Z as Hpow by lia.
  apply Z.pow_lt_mono_r_iff in Hpow; [lia | lia | apply Zdigits2_nonneg].
Qed.

(** The rounding of [SpecFloat]: the number held, between two numbers of
    the format, is rounded to a number between them. *)
Lemma binary_round_aux_between sx mx ex lx v L H :
  holds (shr_record_of_loc mx lx) ex v →
  (ex <= fexp (Zdigits2 mx + ex))%Z →
  representable prec emax L → representable prec emax H → L <= v → v <= H →
  rounded_between sx L H (binary_round_aux prec emax sx mx ex lx).
Proof.
  intros Hh He HL HH HLv HvH. unfold binary_round_aux.
  destruct (shr_fexp_holds mx ex lx v Hh He) as (Hh1 & He1 & Hc1).
  destruct (shr_fexp prec emax mx ex lx) as [mrs1 e1]. cbn [fst snd] in *.
  set (m1 := round_nearest_even (shr_m mrs1) (loc_of_shr_record mrs1)).
  destruct (round_nearest_even_holds _ _ _ Hh1) as [Hm1 _]. fold m1 in Hm1.
  pose proof (round_nearest_even_below _ _ _ _ Hh1 Hc1 HH HvH) as Hup.
  fold m1 in Hup.
  pose proof (floor_lower _ _ _ _ Hh1 Hc1 HL HLv) as Hlow.
  assert (L <= inject_Z m1 * bpow e1) as Hlow1.
  { eapply Qle_trans; [exact Hlow|]. apply grid_le. lia. }
  assert (holds (shr_record_of_loc m1 loc_Exact) e1 (inject_Z m1 * bpow e1))
    as Hh1'.
  { destruct Hh1 as (Hm & _). pose proof (bpow_pos e1).
    unfold holds. cbn [shr_record_of_loc shr_m shr_r shr_s].
    split; [lia|]. split; [apply Qle_refl|].
    split; [apply grid_lt; lia | done]. }
  pose proof (coarse_next _ _ m1 Hc1 (proj1 Hm1)) as He1'.
  destruct (shr_fexp_holds m1 e1 loc_Exact _ Hh1' He1') as (Hh2 & He2 & Hc2).
  destruct (shr_fexp prec emax m1 e1 loc_Exact) as [mrs2 e2].
  cbn [fst snd] in *.
  pose proof (floor_lower _ _ _ _ Hh2 Hc2 HL Hlow1) as Hlow2.
  destruct Hh2 as (Hm2 & Hlo2 & _). unfold coarse in Hc2.
  destruct (shr_m mrs2) as [|m|m] eqn:Hmrs2; [| |lia].
  - cbn [rounded_between]. split; [done|].
    change (inject_Z 0) with 0 in Hlow2. lra.
  - assert (e2 <= emax - prec)%Z as Hfin.
    { destruct Hc2 as [->|[_ Hc2]]; [unfold SpecFloat.emin; lia|].
      destruct HH as (K & eH & HH & HK & HeH).
      pose proof (representable_below K eH HK) as Hb.
      assert (bpow (e2 + prec - 1) < bpow (prec + eH)) as Hlt by lra.
      apply bpow_lt_inv in Hlt. lia. }
    apply Z.leb_le in Hfin. rewrite Hfin. cbn [rounded_between].
    split; [done|]. split; lra.
Qed.

(** *** Rounding a whole mantissa *)

Lemma iter_xO_value m d : Z.pos (Pos.iter xO m d) = (Z.pos m * 2 ^ Z.pos d)%Z.
Proof.
  induction d as [|d IH] using Pos.peano_ind.
  - cbn [Pos.iter]. lia.
  - rewrite Pos.iter_succ, Pos2Z.inj_succ, Z.pow_succ_r by lia.
    rewrite Pos2Z.inj_xO, IH. lia.
Qed.

Lemma iter_xO_digits m d :
  digits2_pos (Pos.iter xO m d) = (digits2_pos m + d)%positive.
Proof.
  induction d as [|d IH] using Pos.peano_ind.
  - cbn [Pos.iter digits2_pos]. lia.
  - rewrite Pos.iter_succ. cbn [digits2_pos]. rewrite IH. lia.
Qed.

Lemma shl_align_value mx ex ex' :
  inject_Z (Z.pos (shl_align mx ex ex').1) * bpow (shl_align mx ex ex').2
  == inject_Z (Z.pos mx) * bpow ex
  ∧ (shl_align mx ex ex').2 = Z.min ex ex'
  ∧ (Z.pos (digits2_pos (shl_align mx ex ex').1) + (shl_align mx ex ex').2
     = Z.pos (digits2_pos mx) + ex)%Z.
Proof.
  unfold shl_align. destruct (ex' - ex)%Z as [|d|d] eqn:Hd; cbn [fst snd].
  - split; [reflexivity|]. split; lia.
  - split; [reflexivity|]. split; lia.
  - rewrite iter_xO_value, iter_xO_digits.
    split; [|split; lia].
    rewrite (grid_coarsen (Z.pos mx) ex ex') by lia.
    replace (ex - ex')%Z with (Z.pos d) by lia. reflexivity.
Qed.

Lemma holds_exact m e :
  (0 <= m)%Z → holds (shr_record_of_loc m loc_Exact) e (inject_Z m * bpow e).
Proof.
  intros Hm. unfold holds. cbn [shr_record_of_loc shr_m shr_r shr_s].
  split; [done|]. split; [apply Qle_refl|].
  split; [apply grid_lt; lia | done].
Qed.

Lemma binary_round_between sx mx ex L H :
  representable prec emax L → representable prec emax H →
  L <= inject_Z (Z.pos mx) * bpow ex → inject_Z (Z.pos mx) * bpow ex <= H →
  rounded_between sx L H (binary_round prec emax sx mx ex).
Proof.
  intros HL HH HLv HvH. unfold binary_round.
  destruct (shl_align_value mx ex (fexp (Z.pos (digits2_pos mx) + ex)))
    as (Hv & He & Hd).
  destruct (shl_align mx ex _) as [mz ez]. cbn [fst snd] in *.
  apply (binary_round_aux_between _ _ _ _ (inject_Z (Z.pos mz) * bpow ez)).
  - by apply holds_exact.
  - cbn [Zdigits2]. rewrite Hd. lia.
  - done.
  - done.
  - by rewrite Hv.
  - by rewrite Hv.
Qed.

(** *** Signed bounds *)

Lemma representable_nonneg x : representable prec emax x → 0 <= x.
Proof.
  intros (K & e & Hx & HK & _). rewrite Hx. pose proof (bpow_pos e).
  apply Qmult_le_0_compat; [|lra]. change 0 with (inject_Z 0).
  rewrite <- Zle_Qle. lia.
Qed.

Lemma representable_0 x : x == 0 → representable prec emax x.
Proof.
  intros Hx. exists 0%Z, emin. split; [rewrite Hx; ring|].
  split; [split; [lia | by apply Z.pow_pos_nonneg; lia]|].
  unfold SpecFloat.emin. lia.
Qed.

Lemma in_format_nonneg x : in_format prec emax x → 0 <= x →
  representable prec emax x.
Proof.
  intros [Hx|Hx] H0; [done|]. apply representable_nonneg in Hx as Hx'.
  apply representable_0. lra.
Qed.

Lemma in_format_opp x : in_format prec emax x → in_format prec emax (- x).
Proof.
  intros [Hx|Hx]; [right|left]; [|done].
  destruct Hx as (K & e & Hx & HK). exists K, e. split; [|done].
  rewrite <- Hx. ring.
Qed.

(** A rounding that keeps the magnitude [v] between the numbers of the
    format around it keeps the number of sign [sx] between signed
    bounds. *)
Lemma signed_between (sx : bool) (v lo hi : Q) (r : spec_float) :
  0 < v → in_format prec emax lo → in_format prec emax hi →
  lo <= (if sx then - v else v) → (if sx then - v else v) <= hi →
  (∀ L H, representable prec emax L → representable prec emax H → L <= v →
  v <= H →
          rounded_between sx L H r) →
  SF_between lo hi r.
Proof.
  intros Hv Hlo Hhi Hlov Hvhi Hr. destruct sx.
  - assert (representable prec emax (- lo)) as HH.
    { apply in_format_nonneg; [by apply in_format_opp | lra]. }
    destruct (Qlt_le_dec 0 hi) as [Hpos|Hneg].
    + specialize (Hr 0 (- lo) (representable_0 0 (Qeq_refl 0)) HH).
      destruct r as [s|s| |s m e]; cbn [rounded_between] in Hr;
        try (exfalso; apply Hr; lra).
      * destruct Hr as [_ _]; [lra | lra|]. split; [done|]. cbn. lra.
      * destruct Hr as (-> & HL & HH'); [lra | lra|].
        split; [done|]. cbn [SF2Q].
        pose proof (bpow_pos e). 
        assert (0 <= inject_Z (Z.pos m) * bpow e) by lra. lra.
    + assert (representable prec emax (- hi)) as HL.
      { apply in_format_nonneg; [by apply in_format_opp | lra]. }
      specialize (Hr (- hi) (- lo) HL HH).
      destruct r as [s|s| |s m e]; cbn [rounded_between] in Hr;
        try (exfalso; apply Hr; lra).
      * destruct Hr as [_ H0]; [lra | lra|]. split; [done|]. cbn. lra.
      * destruct Hr as (-> & HL' & HH'); [lra | lra|].
        split; [done|]. cbn [SF2Q]. lra.
  - assert (representable prec emax hi) as HH by (apply in_format_nonneg;
      [done | lra]).
    destruct (Qlt_le_dec lo 0) as [Hneg|Hpos].
    + specialize (Hr 0 hi (representable_0 0 (Qeq_refl 0)) HH).
      destruct r as [s|s| |s m e]; cbn [rounded_between] in Hr;
        try (exfalso; apply Hr; lra).
      * destruct Hr as [_ _]; [lra | lra|]. split; [done|]. cbn. lra.
      * destruct Hr as (-> & HL & HH'); [lra | lra|].
        split; [done|]. cbn [SF2Q]. lra.
    + assert (representable prec emax lo) as HL by (by apply in_format_nonneg).
      specialize (Hr lo hi HL HH).
      destruct r as [s|s| |s m e]; cbn [rounded_between] in Hr;
        try (exfalso; apply Hr; lra).
      * destruct Hr as [_ H0]; [lra | lra|]. split; [done|]. cbn. lra.
      * destruct Hr as (-> & HL' & HH'); [lra | lra|].
        split; [done|]. cbn [SF2Q]. lra.
Qed.

Lemma binary_normalize_between m e szero lo hi :
  in_format prec emax lo → in_format prec emax hi →
  lo <= inject_Z m * bpow e → inject_Z m * bpow e <= hi →
  SF_between lo hi (binary_normalize prec emax m e szero).
Proof.
  intros Hlo Hhi Hlov Hvhi. pose proof (bpow_pos e) as Hp.
  destruct m as [|p|p]; cbn [binary_normalize].
  - change (inject_Z 0) with 0 in *. split; [done|]. cbn. lra.
  - apply (signed_between false (inject_Z (Z.pos p) * bpow e)); try done.
    + apply Qmult_lt_0_compat; [|done]. change 0 with (inject_Z 0).
      rewrite <- Zlt_Qlt. lia.
    + intros L H HL HH HLv HvH. by apply binary_round_between.
  - assert (inject_Z (Z.neg p) == - inject_Z (Z.pos p)) as Hneg.
    { change (Z.neg p) with (- Z.pos p)%Z. by rewrite inject_Z_opp. }
    rewrite Hneg in Hlov, Hvhi.
    apply (signed_between true (inject_Z (Z.pos p) * bpow e)); try done.
    + apply Qmult_lt_0_compat; [|done]. change 0 with (inject_Z 0).
      rewrite <- Zlt_Qlt. lia.
    + lra.
    + lra.
    + intros L H HL HH HLv HvH. by apply binary_round_between.
Qed.

(** *** Addition *)

Lemma shl_align_fst mx ex ez :
  (ez <= ex)%Z →
  inject_Z (Z.pos (shl_align mx ex ez).1) * bpow ez
  == inject_Z (Z.pos mx) * bpow ex.
Proof.
  intros He. destruct (shl_align_value mx ex ez) as (Hv & He' & _).
  rewrite <- Hv. replace ((shl_align mx ex ez).2) with ez by lia. reflexivity.
Qed.

Lemma aligned_value (s : bool) (m : positive) (e ez : Z) :
  (ez <= e)%Z →
  inject_Z (cond_Zopp s (Z.pos (shl_align m e ez).1)) * bpow ez
  == SF2Q (S754_finite s m e).
Proof.
  intros He. pose proof (shl_align_fst m e ez He) as Hv. cbn [SF2Q].
  destruct s; cbn [cond_Zopp]; [|done].
  rewrite inject_Z_opp. lra.
Qed.

Lemma SFadd_between x y lo hi :
  SF_finite x = true → SF_finite y = true →
  in_format prec emax lo → in_format prec emax hi →
  lo <= SF2Q x + SF2Q y → SF2Q x + SF2Q y <= hi →
  SF_between lo hi (SFadd prec emax x y).
Proof.
  intros Hx Hy Hlo Hhi Hlov Hvhi.
  destruct x as [sx|sx| |sx mx ex], y as [sy|sy| |sy my ey]; try done.
  - cbn [SF2Q] in *. split; [by destruct sx, sy|].
    destruct sx, sy; cbn; lra.
  - cbn [SFadd]. split; [done|]. cbn [SF2Q] in *. lra.
  - cbn [SFadd]. split; [done|]. cbn [SF2Q] in *. lra.
  - cbn [SFadd]. cbv zeta. apply binary_normalize_between; try done.
    + rewrite inject_Z_plus, Qmult_plus_distr_l, !aligned_value by lia.
      exact Hlov.
    + rewrite inject_Z_plus, Qmult_plus_distr_l, !aligned_value by lia.
      exact Hvhi.
Qed.

(** *** Division *)

Lemma new_location_exact nb : new_location nb 0 = loc_Exact.
Proof.
  unfold new_location, new_location_even, new_location_odd.
  by destruct (Z.even nb).
Qed.

Lemma digits_of_large q : (2 ^ (prec - 1) <= q)%Z → (prec <= Zdigits2 q)%Z.
Proof.
  intros Hq.
  assert (0 < 2 ^ (prec - 1))%Z by (apply Z.pow_pos_nonneg; lia).
  destruct (Zdigits2_bounds q) as [_ Hd]; [lia|].
  assert (2 ^ (prec - 1) < 2 ^ Zdigits2 q)%Z as Hpow by lia.
  apply Z.pow_lt_mono_r_iff in Hpow; [lia | lia | apply Zdigits2_nonneg].
Qed.

(** The quotient and the remainder computed for a division hold the
    exact quotient. *)
Lemma SFdiv_core_binary_holds mx ex my ey :
  let c := SFdiv_core_binary prec emax (Z.pos mx) ex (Z.pos my) ey in
  holds (shr_record_of_loc c.1.1 c.2) c.1.2
    ((inject_Z (Z.pos mx) * bpow ex) / (inject_Z (Z.pos my) * bpow ey))
  ∧ (c.1.2 <= fexp (Zdigits2 c.1.1 + c.1.2))%Z.
Proof.
  unfold SFdiv_core_binary.
  set (d1 := Zdigits2 (Z.pos mx)). set (d2 := Zdigits2 (Z.pos my)).
  set (e' := Z.min (fexp (d1 + ex - (d2 + ey))) (ex - ey)).
  set (s := (ex - ey - e')%Z).
  assert (0 <= s)%Z as Hs by lia.
  set (m' := match s with
             | 0%Z => Z.pos mx
             | Z.pos _ => Z.shiftl (Z.pos mx) s
             | Z.neg _ => 0%Z
             end).
  assert (m' = Z.pos mx * 2 ^ s)%Z as Hm'.
  { subst m'. destruct s as [|p|p] eqn:Hsp; [lia| |lia].
    by rewrite Z.shiftl_mul_pow2. }
  pose proof (Z_div_mod m' (Z.pos my) eq_refl) as Hdiv.
  destruct (Z.div_eucl m' (Z.pos my)) as [q r]. destruct Hdiv as [Hqr Hr].
  cbv zeta. cbn [fst snd].
  set (V := (inject_Z (Z.pos mx) * bpow ex) / (inject_Z (Z.pos my) * bpow ey)).
  pose proof (bpow_pos e') as HB. pose proof (bpow_pos ey) as HBy.
  assert (0 < inject_Z (Z.pos my)) as HM2.
  { change 0 with (inject_Z 0). rewrite <- Zlt_Qlt. lia. }
  assert (0 < 2 ^ s)%Z as H2s by (apply Z.pow_pos_nonneg; lia).
  assert (V == inject_Z m' * bpow e' / inject_Z (Z.pos my)) as HV.
  { subst V. replace ex with (s + (e' + ey))%Z at 1 by lia.
    rewrite bpow_grid, bpow_add, Hm', inject_Z_mult by lia.
    field. split; lra. }
  assert (0 <= q)%Z as Hq by nia.
  split.
  - unfold holds. rewrite shr_m_of_loc. split; [done|]. split; [|split].
    + rewrite HV. apply Qle_shift_div_l; [done|].
      rewrite <- Qmult_assoc, (Qmult_comm (bpow e')), Qmult_assoc.
      rewrite <- inject_Z_mult. apply grid_le. nia.
    + rewrite HV. apply Qlt_shift_div_r; [done|].
      rewrite <- Qmult_assoc, (Qmult_comm (bpow e')), Qmult_assoc.
      rewrite <- inject_Z_mult. apply grid_lt. nia.
    + intros Hex. rewrite HV in Hex.
      assert (inject_Z m' * bpow e' == inject_Z (q * Z.pos my) * bpow e')
        as Heq.
      { rewrite inject_Z_mult. 
        apply (Qmult_inj_r _ _ (/ inject_Z (Z.pos my))).
        - intros H0. apply Qinv_lt_0_compat in HM2. lra.
        - unfold Qdiv in Hex. rewrite Hex. field. lra. }
      assert (m' = q * Z.pos my)%Z as Hm.
      { apply Z.le_antisymm; apply (grid_le _ _ e'); rewrite Heq;
          apply Qle_refl. }
      assert (r = 0)%Z as -> by lia.
      by rewrite new_location_exact.
  - unfold SpecFloat.fexp in *.
    destruct (Z_le_gt_dec e' emin) as [Hle|Hgt]; [lia|].
    assert (prec - d1 + d2 <= s)%Z as Hs' by lia.
    assert (0 < Z.pos mx)%Z as Hmx by lia.
    assert (0 < Z.pos my)%Z as Hmy by lia.
    pose proof (Zdigits2_bounds _ Hmx) as [Hd1 _].
    pose proof (Zdigits2_bounds _ Hmy) as [Hd2l Hd2]. fold d1 in Hd1.
    fold d2 in Hd2, Hd2l.
    assert (1 <= d2)%Z as Hd2pos.
    { subst d2. cbn [Zdigits2]. lia. }
    assert (1 <= d1)%Z as Hd1pos.
    { subst d1. cbn [Zdigits2]. lia. }
    assert (2 ^ (prec - 1) <= q)%Z as Hqbig.
    { assert (2 ^ (prec - 1) * 2 ^ d2 <= m')%Z as Hbig.
      { rewrite Hm', <- Z.pow_add_r by lia.
        apply Z.le_trans with (2 ^ (d1 - 1 + s))%Z;
          [apply Z.pow_le_mono_r; lia|].
        rewrite Z.pow_add_r by lia.
        apply Z.mul_le_mono_nonneg_r; [lia | exact Hd1]. }
      assert (0 < 2 ^ (prec - 1))%Z by (apply Z.pow_pos_nonneg; lia).
      nia. }
    apply digits_of_large in Hqbig. lia.
Qed.

Lemma SFdiv_between x my ey lo hi :
  SF_finite x = true → in_format prec emax lo → in_format prec emax hi →
  lo * SF2Q (S754_finite false my ey) <= SF2Q x →
  SF2Q x <= hi * SF2Q (S754_finite false my ey) →
  SF_between lo hi (SFdiv prec emax x (S754_finite false my ey)).
Proof.
  intros Hx Hlo Hhi Hlov Hvhi. cbn [SF2Q] in Hlov, Hvhi.
  set (Y := inject_Z (Z.pos my) * bpow ey) in *.
  assert (0 < Y) as HY.
  { apply Qmult_lt_0_compat; [|apply bpow_pos]. change 0 with (inject_Z 0).
    rewrite <- Zlt_Qlt. lia. }
  destruct x as [sx|sx| |sx mx ex]; try done.
  - cbn [SFdiv SF2Q] in *. split; [done|]. cbn [SF2Q]. split.
    + destruct (Qlt_le_dec 0 lo) as [Hpos|]; [|done].
      pose proof (Qmult_lt_0_compat _ _ Hpos HY). lra.
    + destruct (Qlt_le_dec hi 0) as [Hneg|]; [|done].
      assert (0 < (- hi) * Y) by (apply Qmult_lt_0_compat; lra). lra.
  - cbn [SFdiv SF2Q] in *.
    destruct (SFdiv_core_binary_holds mx ex my ey) as [Hh He].
    destruct (SFdiv_core_binary prec emax (Z.pos mx) ex (Z.pos my) ey)
      as [[q e'] l].
    cbn [fst snd] in Hh, He. fold Y in Hh.
    set (X := inject_Z (Z.pos mx) * bpow ex) in *.
    assert (0 < X) as HX.
    { apply Qmult_lt_0_compat; [|apply bpow_pos]. change 0 with (inject_Z 0).
      rewrite <- Zlt_Qlt. lia. }
    assert (0 < X / Y) as HXY.
    { apply Qlt_shift_div_l; [done | lra]. }
    replace (xorb sx false) with sx by by destruct sx.
    assert ((if sx then - inject_Z (Z.pos mx) else inject_Z (Z.pos mx))
            * bpow ex == (if sx then - X else X)) as HSx
      by (subst X; destruct sx; ring).
    rewrite HSx in Hlov, Hvhi.
    apply (signed_between sx (X / Y)); try done.
    + destruct sx.
      * assert (- (X / Y) == (- X) / Y) as -> by (field; lra).
        apply Qle_shift_div_l; [done|]. lra.
      * apply Qle_shift_div_l; [done | lra].
    + destruct sx.
      * assert (- (X / Y) == (- X) / Y) as -> by (field; lra).
        apply Qle_shift_div_r; [done|]. lra.
      * apply Qle_shift_div_r; [done | lra].
    + intros L H HL HH HLv HvH.
      by apply (binary_round_aux_between _ _ _ _ (X / Y)).
Qed.

(** *** Numbers of the format *)

Lemma representable_proper x y : x == y → representable prec emax x →
  representable prec emax y.
Proof.
  intros Hxy (K & e & HK & Hr). exists K, e. split; [|done].
  by rewrite <- Hxy.
Qed.

Lemma in_format_proper x y : x == y → in_format prec emax x →
  in_format prec emax y.
Proof.
  intros Hxy [Hx|Hx]; [left|right].
  - by apply (representable_proper x).
  - apply (representable_proper (- x)); [|done]. by rewrite Hxy.
Qed.

Lemma in_format_scaled (a g : Z) :
  (Z.abs a <= 2 ^ prec)%Z → (emin <= g < emax - prec)%Z →
  in_format prec emax (inject_Z a * bpow g).
Proof.
  intros Ha Hg.
  assert (∀ b, (0 <= b <= 2 ^ prec)%Z →
  representable prec emax (inject_Z b * bpow g))
    as Hrep.
  { intros b Hb. destruct (Z.eq_dec b (2 ^ prec)%Z) as [->|Hne].
    - exists (2 ^ (prec - 1))%Z, (g + 1)%Z. split; [|split].
      + rewrite bpow_succ. replace prec with (prec - 1 + 1)%Z at 1 by lia.
        rewrite Z.pow_add_r, inject_Z_mult by lia.
        change (inject_Z (2 ^ 1)) with 2. ring.
      + split; [apply Z.pow_nonneg; lia|].
        apply Z.pow_lt_mono_r; lia.
      + lia.
    - exists b, g. split; [reflexivity|]. split; lia. }
  destruct (Z_le_gt_dec 0%Z a) as [Hpos|Hneg].
  - left. apply Hrep. lia.
  - right. apply (representable_proper (inject_Z (- a) * bpow g));
      [rewrite inject_Z_opp; ring|].
    apply Hrep. lia.
Qed.

Lemma in_format_whole (a : Z) :
  (Z.abs a <= 2 ^ prec)%Z → in_format prec emax (inject_Z a).
Proof.
  intros Ha. apply (in_format_proper (inject_Z a * bpow 0)).
  - rewrite bpow_0. ring.
  - apply in_format_scaled; [done|]. unfold SpecFloat.emin. lia.
Qed.

End Rounding.

(** ** The operations of binary64 *)

Lemma binary64_prec : (0 < prec)%Z.
Proof. done. Qed.

Lemma binary64_emax : (prec < emax)%Z.
Proof. done. Qed.

(** A sum and a quotient of finite floats never pass a number of the
    format that their exact value does not pass. *)
Lemma add_between (a b : float) (lo hi : Q) :
  finite a = true → finite b = true → binary64 lo → binary64 hi →
  lo <= F2Q a + F2Q b → F2Q a + F2Q b <= hi →
  between lo hi (a + b)%float.
Proof.
  intros Ha Hb Hlo Hhi Hlov Hvhi. unfold between, finite, F2Q.
  rewrite FloatAxioms.add_spec.
  by apply (SFadd_between prec emax binary64_prec binary64_emax).
Qed.

Lemma div_between (a b : float) (lo hi : Q) :
  finite a = true → finite b = true → 0 < F2Q b →
  binary64 lo → binary64 hi →
  lo * F2Q b <= F2Q a → F2Q a <= hi * F2Q b →
  between lo hi (a / b)%float.
Proof.
  unfold between, finite, F2Q. rewrite FloatAxioms.div_spec.
  intros Ha Hb Hpos Hlo Hhi Hlov Hvhi.
  destruct (Prim2SF b) as [s|s| |s m e] eqn:Hsf; try (cbn in Hpos; lra).
  destruct s.
  - exfalso. cbn [SF2Q] in Hpos. pose proof (bpow_pos e).
    assert (0 < inject_Z (Z.pos m) * bpow e).
    { apply Qmult_lt_0_compat; [|done]. change 0 with (inject_Z 0).
      rewrite <- Zlt_Qlt. lia. }
    lra.
  - by apply (SFdiv_between prec emax binary64_prec binary64_emax).
Qed.

(** The length of a window is converted without error. *)
Lemma of_nat_between (n : nat) :
  (Z.of_nat n <= 2 ^ 53)%Z →
  between (inject_Z (Z.of_nat n)) (inject_Z (Z.of_nat n)) (of_nat n).
Proof.
  intros Hn. unfold between, finite, F2Q. cbn [of_nat float_arith].
  rewrite FloatAxioms.of_uint63_spec, Uint63.of_Z_spec.
  assert (2 ^ 53 < wB)%Z as HwB by reflexivity.
  rewrite Z.mod_small by lia.
  assert (binary64 (inject_Z (Z.of_nat n))) as Hfmt.
  { apply (in_format_whole prec emax binary64_prec binary64_emax).
    change prec with 53%Z. lia. }
  apply (binary_normalize_between prec emax binary64_prec binary64_emax);
    try done.
  - rewrite bpow_0. lra.
  - rewrite bpow_0. lra.
Qed.

(** ** Sums and means of floats between two bounds *)

Section SumBetween.
Variables (lo hi : Q) (N : nat).
Hypothesis Hfmt :
  ∀ j, (j ≤ N)%nat →
       binary64 (inject_Z (Z.of_nat j) * lo)
       ∧ binary64 (inject_Z (Z.of_nat j) * hi).

Lemma between_times_zero : between_times lo hi 0 0%float.
Proof.
  unfold between_times, between. split; [done|].
  change (F2Q 0) with 0. change (inject_Z (Z.of_nat 0)) with 0. lra.
Qed.

Lemma between_times_one (x : float) :
  between lo hi x ↔ between_times lo hi 1 x.
Proof.
  unfold between_times, between. change (inject_Z (Z.of_nat 1)) with 1.
  split; intros (Hf & Hlo & Hhi); (split; [done|]); lra.
Qed.

Lemma between_times_add (j1 j2 : nat) (a b : float) :
  (j1 + j2 ≤ N)%nat →
  between_times lo hi j1 a → between_times lo hi j2 b →
  between_times lo hi (j1 + j2) (a + b)%float.
Proof.
  intros Hj (Hfa & Hloa & Hhia) (Hfb & Hlob & Hhib).
  destruct (Hfmt (j1 + j2)%nat Hj) as [Hflo Hfhi].
  unfold between_times. apply add_between; try done.
  - rewrite Nat2Z.inj_add, inject_Z_plus. lra.
  - rewrite Nat2Z.inj_add, inject_Z_plus. lra.
Qed.

Lemma between_times_foldl (j : nat) (acc : float) (l : list float) :
  (j + length l ≤ N)%nat →
  between_times lo hi j acc → Forall (between lo hi) l →
  between_times lo hi (j + length l) (foldl PrimFloat.add acc l).
Proof.
  intros Hj Hacc Hall. revert j acc Hj Hacc.
  induction Hall as [|x l Hx _ IH]; intros j acc Hj Hacc; cbn [foldl length].
  - by rewrite Nat.add_0_r.
  - cbn [length] in Hj.
    replace (j + S (length l))%nat with (j + 1 + length l)%nat by lia.
    apply IH; [lia|]. apply between_times_add; [lia | done|].
    by apply between_times_one.
Qed.

Lemma between_times_zip (c : nat) (r chunk : list float) :
  (c + 1 ≤ N)%nat →
  Forall (between_times lo hi c) r → Forall (between lo hi) chunk →
  Forall (between_times lo hi (c + 1)) (zip_with PrimFloat.add r chunk).
Proof.
  intros Hc Hr. revert chunk.
  induction Hr as [|x r Hx _ IH]; intros chunk Hchunk; [constructor|].
  destruct Hchunk as [|y chunk Hy Hchunk]; cbn [zip_with]; constructor.
  - apply between_times_add; [done..|]. by apply between_times_one.
  - by apply IH.
Qed.

Lemma between_times_lanes (turns c : nat) (r rest : list float) :
  (c + turns ≤ N)%nat → length r = 8%nat → (8 * turns ≤ length rest)%nat →
  Forall (between_times lo hi c) r → Forall (between lo hi) rest →
  Forall (between_times lo hi (c + turns)) (sum_lanes turns r rest)
  ∧ length (sum_lanes turns r rest) = 8%nat.
Proof.
  revert c r rest.
  induction turns as [|t IH]; intros c r rest Hc Hlen Hrest Hr Hall;
    cbn [sum_lanes].
  - by rewrite Nat.add_0_r.
  - replace (c + S t)%nat with (c + 1 + t)%nat by lia. apply IH.
    + lia.
    + rewrite length_zip_with, length_take. lia.
    + rewrite length_drop. lia.
    + apply between_times_zip; [lia | done|]. by apply Forall_take.
    + by apply Forall_drop.
Qed.

Lemma between_times_block (a : list float) :
  (8 ≤ length a)%nat → (length a ≤ N)%nat → Forall (between lo hi) a →
  between_times lo hi (length a) (sum_block a).
Proof.
  intros H8 HN Hall. unfold sum_block. cbv zeta.
  set (n := length a) in *.
  pose proof (Nat.div_mod_eq n 8) as Hdm.
  pose proof (Nat.mod_upper_bound n 8 ltac:(lia)) as Hmod.
  assert (1 ≤ n / 8)%nat as Hq by lia.
  destruct (between_times_lanes (n / 8 - 1) 1 (take 8 a) (drop 8 a))
    as [Hr Hlen].
  - lia.
  - rewrite length_take. lia.
  - rewrite length_drop. lia.
  - apply Forall_take. eapply Forall_impl; [exact Hall|].
    intros x. apply between_times_one.
  - by apply Forall_drop.
  - replace (1 + (n / 8 - 1))%nat with (n / 8)%nat in Hr by lia.
    destruct (sum_lanes _ _ _)
      as [|r0 [|r1 [|r2 [|r3 [|r4 [|r5 [|r6 [|r7 [|]]]]]]]]]; try done.
    repeat match goal with
           | H : Forall _ (_ :: _) |- _ => apply Forall_cons in H as [? H]
           end.
    set (c := (n / 8)%nat) in *.
    assert (between_times lo hi (c + c + (c + c) + (c + c + (c + c)))
              (r0 + r1 + (r2 + r3) + (r4 + r5 + (r6 + r7)))%float) as Hres.
    { repeat (apply between_times_add; [lia|..]); done. }
    replace n with (c + c + (c + c) + (c + c + (c + c))
                    + length (drop (n - n mod 8) a))%nat at 1
      by (rewrite length_drop; lia).
    apply between_times_foldl; [rewrite length_drop; lia | done|].
    by apply Forall_drop.
Qed.

Lemma between_times_pairwise (fuel : nat) (a : list float) :
  (length a ≤ fuel)%nat → (length a ≤ N)%nat → Forall (between lo hi) a →
  between_times lo hi (length a) (pairwise_sum fuel a).
Proof.
  revert a. induction fuel as [|f IH]; intros a Hfuel HN Hall;
    cbn [pairwise_sum]; cbv zeta.
  - rewrite decide_True by lia.
    apply (between_times_foldl 0); [lia | apply between_times_zero | done].
  - destruct (decide (length a < 8)%nat) as [Hlt|Hge].
    { apply (between_times_foldl 0);
        [lia | apply between_times_zero | done]. }
    destruct (decide (length a ≤ 128)%nat) as [Hle|Hgt].
    { apply between_times_block; [lia | done..]. }
    set (n := length a) in *. set (n2 := (n / 2 - (n / 2) mod 8)%nat).
    pose proof (Nat.div_mod_eq n 2) as Hdm.
    pose proof (Nat.mod_upper_bound n 2 ltac:(lia)) as Hmod.
    pose proof (Nat.mod_upper_bound (n / 2) 8 ltac:(lia)) as Hmod8.
    assert (1 ≤ n2 < n)%nat as Hn2 by lia.
    assert (length (take n2 a) = n2) as Hl1 by (rewrite length_take; lia).
    assert (length (drop n2 a) = (n - n2)%nat) as Hl2
      by (rewrite length_drop; lia).
    replace n with (length (take n2 a) + length (drop n2 a))%nat at 1 by lia.
    apply between_times_add; [lia|..].
    + apply IH; [lia | lia | by apply Forall_take].
    + apply IH; [lia | lia | by apply Forall_drop].
Qed.

Lemma between_times_np_sum (l : list float) :
  (length l ≤ N)%nat → Forall (between lo hi) l →
  between_times lo hi (length l) (np_sum l).
Proof.
  intros HN Hall. unfold np_sum. cbn [add zero float_arith].
  destruct (decide (length l < 8)%nat) as [Hlt|Hge].
  - apply (between_times_foldl 0); [lia | apply between_times_zero | done].
  - apply (between_times_add 0 (length l)); [lia | apply between_times_zero|].
    by apply between_times_pairwise.
Qed.

Lemma np_mean_between (l : list float) :
  l ≠ [] → (length l ≤ N)%nat → (Z.of_nat N <= 2 ^ 53)%Z →
  Forall (between lo hi) l → between lo hi (np_mean l).
Proof.
  intros Hne HN H53 Hall. unfold np_mean. cbn [div float_arith].
  assert (1 ≤ length l)%nat as H1 by (destruct l; [done | cbn; lia]).
  destruct (between_times_np_sum l HN Hall) as (Hf & Hlo & Hhi).
  destruct (of_nat_between (length l)) as (Hfn & Hnlo & Hnhi); [lia|].
  destruct (Hfmt 1%nat) as [Hflo Hfhi]; [lia|].
  change (inject_Z (Z.of_nat 1)) with 1 in Hflo, Hfhi.
  assert (0 < inject_Z (Z.of_nat (length l))) as Hpos.
  { change 0 with (inject_Z 0). rewrite <- Zlt_Qlt. lia. }
  assert (F2Q (of_nat (length l)) == inject_Z (Z.of_nat (length l))) as Hn
    by lra.
  apply div_between; try done.
  - lra.
  - eapply in_format_proper; [|exact Hflo]. ring.
  - eapply in_format_proper; [|exact Hfhi]. ring.
  - rewrite Hn. lra.
  - rewrite Hn. lra.
Qed.

End SumBetween.

(** ** The range of the moving average *)

Section MovingAverageBetween.
Variables (lo hi : Q) (window : nat).
Hypothesis Hwindow : (1 ≤ window)%nat.
Hypothesis Hexact : (Z.of_nat window <= 2 ^ 53)%Z.
Hypothesis Hfmt :
  ∀ j, (j ≤ window)%nat →
       binary64 (inject_Z (Z.of_nat j) * lo)
       ∧ binary64 (inject_Z (Z.of_nat j) * hi).

Lemma moving_average_step_between (data : list float) :
  data ≠ [] → Forall (between lo hi) data →
  between lo hi (moving_average_step window data).
Proof.
  intros Hne Hall. unfold moving_average_step.
  destruct (decide (window ≤ length data)%nat) as [Hle|Hgt].
  - unfold slice_last. rewrite decide_False by lia.
    apply (np_mean_between lo hi window Hfmt).
    + intros Hnil. apply (f_equal length) in Hnil.
      rewrite length_drop in Hnil. cbn in Hnil. lia.
    + rewrite length_drop. lia.
    + done.
    + by apply Forall_drop.
  - apply (np_mean_between lo hi window Hfmt); [done | lia | done..].
Qed.

Lemma moving_average_values_between (horizon : nat) (data : list float) :
  data ≠ [] → Forall (between lo hi) data →
  Forall (between lo hi) (moving_average_values window horizon data).
Proof.
  revert data. induction horizon as [|h IH]; intros data Hne Hall;
    cbn [moving_average_values]; [constructor|].
  pose proof (moving_average_step_between data Hne Hall) as Hma.
  constructor; [done|]. apply IH.
  - by destruct data.
  - apply Forall_app. split; [done|]. by apply Forall_singleton.
Qed.

End MovingAverageBetween.
(** The least and the greatest value bound every value of the series. *)
Lemma foldl_Qmin_le (l : list Q) (a : Q) :
  (foldl Qmin a l <= a)%Q ∧ Forall (λ x, (foldl Qmin a l <= x)%Q) l.
Proof.
  revert a. induction l as [|x l IH]; intros a; cbn.
  - split; [lra | constructor].
  - destruct (IH (Qmin a x)) as [Hle Hall].
    pose proof (Q.le_min_l a x). pose proof (Q.le_min_r a x).
    split; [lra|]. constructor; [lra | done].
Qed.

Lemma foldl_Qmax_ge (l : list Q) (a : Q) :
  (a <= foldl Qmax a l)%Q ∧ Forall (λ x, (x <= foldl Qmax a l)%Q) l.
Proof.
  revert a. induction l as [|x l IH]; intros a; cbn.
  - split; [lra | constructor].
  - destruct (IH (Qmax a x)) as [Hle Hall].
    pose proof (Q.le_max_l a x). pose proof (Q.le_max_r a x).
    split; [lra|]. constructor; [lra | done].
Qed.

Lemma series_within_min_max (y : list Q) :
  Forall (within (series_min y) (series_max y)) y.
Proof.
  destruct y as [|v rest]; [constructor|]. unfold series_min, series_max.
  destruct (foldl_Qmin_le rest v) as [Hmin Hmins].
  destruct (foldl_Qmax_ge rest v) as [Hmax Hmaxs].
  constructor; [by split|].
  apply Forall_forall. intros x Hx. split.
  - by eapply Forall_forall in Hmins.
  - by eapply Forall_forall in Hmaxs.
Qed.

(** The multiples, up to [window] times, of a bound on the grid of
    [2 ^ g] are numbers of binary64. *)
Lemma binary64_times (a g : Z) (j window : nat) (x : Q) :
  x == inject_Z a * bpow g → (-1074 <= g < 971)%Z →
  (Z.of_nat window * Z.abs a <= 2 ^ 53)%Z → (j ≤ window)%nat →
  binary64 (inject_Z (Z.of_nat j) * x).
Proof.
  intros Hx Hg Ha Hj.
  apply (in_format_proper prec emax (inject_Z (Z.of_nat j * a) * bpow g)).
  - rewrite Hx, inject_Z_mult. ring.
  - apply (in_format_scaled prec emax binary64_prec); [|done].
    change prec with 53%Z. nia.
Qed.

(** C10, amended.  In binary64, when the least and the greatest value of
    a series that is not empty are multiples [a * 2 ^ g] and [b * 2 ^ g]
    of one power of two, and [window] times the larger of [|a|], [|b|]
    and 1 is at most [2 ^ 53] (whole numbers up to [2 ^ 53 / window] are
    the case [g = 0]), every value the [moving_average] branch produces
    is finite and lies between the least and the greatest value of the
    series, for every window of at least 1 and every horizon. *)
Theorem moving_average_stays_in_range
    (window horizon : nat) (y : list float) (a b g : Z) :
  y ≠ [] → (1 ≤ window)%nat →
  Forall (λ v, finite v = true) y →
  series_min (F2Q <$> y) == inject_Z a * bpow g →
  series_max (F2Q <$> y) == inject_Z b * bpow g →
  (-1074 <= g < 971)%Z →
  (Z.of_nat window * Z.max 1 (Z.max (Z.abs a) (Z.abs b)) <= 2 ^ 53)%Z →
  Forall (between (series_min (F2Q <$> y)) (series_max (F2Q <$> y)))
         (moving_average window horizon y).
Proof.
  intros Hne Hw Hfin Hmin Hmax Hg Hbound. unfold moving_average.
  rewrite moving_average_loop_values. cbn [snd app].
  apply moving_average_values_between; try done.
  - nia.
  - intros j Hj. split.
    + apply (binary64_times a g j window); [done | done | nia | done].
    + apply (binary64_times b g j window); [done | done | nia | done].
  - pose proof (series_within_min_max (F2Q <$> y)) as Hin.
    rewrite Forall_fmap in Hin.
    apply Forall_forall. intros v Hv.
    rewrite Forall_forall in Hfin, Hin.
    split; [by apply Hfin|]. by apply Hin.
Qed.

Lemma moving_average_stays_in_range_witness :
  Forall (between (series_min (F2Q <$> [3; 0x1.8666666666666p+2; 7]%float))
                  (series_max (F2Q <$> [3; 0x1.8666666666666p+2; 7]%float)))
         (moving_average 2 3 [3; 0x1.8666666666666p+2; 7]%float).
Proof.
  apply (moving_average_stays_in_range 2 3 [3; 0x1.8666666666666p+2; 7]%float
      3 7 0).
  - discriminate.
  - lia.
  - repeat constructor.
  - vm_compute. reflexivity.
  - vm_compute. reflexivity.
  - lia.
  - vm_compute. discriminate.
Defined.

(** C10, as a counterexample: in binary64 three times the number nearest
    to 0.1, with a window of 3, give a forecast above all of them. *)
Lemma moving_average_leaves_range :
  ¬ Forall (between
              (series_min (F2Q <$> [0x1.999999999999ap-4; 0x1.999999999999ap-4;
                                    0x1.999999999999ap-4]%float))
              (series_max (F2Q <$> [0x1.999999999999ap-4; 0x1.999999999999ap-4;
                                    0x1.999999999999ap-4]%float)))
           (moving_average 3 1 [0x1.999999999999ap-4; 0x1.999999999999ap-4;
                                0x1.999999999999ap-4]%float).
Proof.
  assert (moving_average 3 1 [0x1.999999999999ap-4; 0x1.999999999999ap-4;
                              0x1.999999999999ap-4]%float
          = [0x1.999999999999bp-4]%float) as -> by reflexivity.
  intros [(_ & _ & Hhi) _]%Forall_cons. vm_compute in Hhi. by apply Hhi.
Qed.

(** ** The column [forecast_defects] *)

(** [round_half_even] on rationals. *)
Lemma round_half_even_proper (v w : Q) :
  v == w → round_half_even v = round_half_even w.
Proof.
  intros Hvw. unfold round_half_even. cbv zeta.
  assert (Qfloor v = Qfloor w) as -> by (by apply Qfloor_comp).
  assert ((v - inject_Z (Qfloor w) ?= 1 # 2)
          = (w - inject_Z (Qfloor w) ?= 1 # 2)) as ->; [|done].
  apply Qcompare_comp; [|reflexivity]. rewrite Hvw. reflexivity.
Qed.

Lemma round_half_even_near (v : Q) :
  inject_Z (round_half_even v) - (1 # 2) <= v
  ∧ v <= inject_Z (round_half_even v) + (1 # 2).
Proof.
  unfold round_half_even. cbv zeta.
  pose proof (Qfloor_le v) as Hlo. pose proof (Qlt_floor v) as Hhi.
  rewrite inject_Z_plus in Hhi. change (inject_Z 1) with 1 in Hhi.
  destruct (Qcompare_spec (v - inject_Z (Qfloor v)) (1 # 2)) as [Heq|Hlt|Hgt].
  - destruct (Z.even (Qfloor v)).
    + split; lra.
    + rewrite inject_Z_plus. change (inject_Z 1) with 1. split; lra.
  - split; lra.
  - rewrite inject_Z_plus. change (inject_Z 1) with 1. split; lra.
Qed.

Lemma round_half_even_whole (z : Z) : round_half_even (inject_Z z) = z.
Proof.
  unfold round_half_even. cbv zeta. rewrite Qfloor_Z.
  destruct (Qcompare_spec (inject_Z z - inject_Z z) (1 # 2)) as [H|H|H];
    [lra | done | lra].
Qed.

Lemma round_half_even_mono (v w : Q) :
  v <= w → (round_half_even v ≤ round_half_even w)%Z.
Proof.
  intros Hvw.
  destruct (Z.le_gt_cases (round_half_even v) (round_half_even w))
    as [Hle|Hgt]; [done|].
  destruct (round_half_even_near v) as [Hv _].
  destruct (round_half_even_near w) as [_ Hw].
  assert (inject_Z (round_half_even w) + 1 <= inject_Z (round_half_even v))
    as Hstep.
  { change 1 with (inject_Z 1). rewrite <- inject_Z_plus, <- Zle_Qle. lia. }
  assert (v == w) as Heq by lra.
  apply round_half_even_proper in Heq. lia.
Qed.

Lemma Qfloor_unique (v : Q) (z : Z) :
  inject_Z z <= v → v < inject_Z z + 1 → Qfloor v = z.
Proof.
  intros Hlo Hhi.
  pose proof (Qfloor_le v) as Hlo'. pose proof (Qlt_floor v) as Hhi'.
  rewrite inject_Z_plus in Hhi'. change (inject_Z 1) with 1 in Hhi'.
  assert (inject_Z (Qfloor v) < inject_Z (z + 1)) as H1
    by (rewrite inject_Z_plus; change (inject_Z 1) with 1; lra).
  assert (inject_Z z < inject_Z (Qfloor v + 1)) as H2
    by (rewrite inject_Z_plus; change (inject_Z 1) with 1; lra).
  rewrite <- Zlt_Qlt in H1, H2. lia.
Qed.

Lemma np_round_astype_int_Some (v : float) (d : Z) :
  np_round_astype_int v = Some d
  ↔ finite v = true ∧ d = round_half_even (F2Q v)
    ∧ (- 2 ^ 63 <= d < 2 ^ 63)%Z.
Proof.
  unfold np_round_astype_int. destruct (finite v); [|by split; [|intros []]].
  cbv zeta. case_decide as Hr.
  - split; [by intros [= <-] | by intros (_ & -> & _)].
  - split; [done | intros (_ & -> & ?); lia].
Qed.

(** X16. The column [forecast_defects] holds, for a finite forecast whose
    nearest whole number is a 64-bit integer, that whole number: it is at
    most one half away from the forecast, a whole number is left as it
    is, a forecast halfway between two whole numbers goes to the even
    one, and a greater forecast never gets a smaller entry.  Every finite
    forecast from [- 2 ^ 63] to [2 ^ 63 - 1] has such an entry. *)
Theorem np_round_astype_int_nearest (v w : float) (d e z : Z) :
  (np_round_astype_int v = Some d →
   finite v = true ∧ (- 2 ^ 63 <= d < 2 ^ 63)%Z
   ∧ inject_Z d - (1 # 2) <= F2Q v ∧ F2Q v <= inject_Z d + (1 # 2)
   ∧ (F2Q v == inject_Z z → d = z)
   ∧ (F2Q v == inject_Z z + (1 # 2) →
      Z.even d = true ∧ (d = z ∨ d = (z + 1)%Z))
   ∧ (np_round_astype_int w = Some e → F2Q v <= F2Q w → (d <= e)%Z))
  ∧ (finite v = true →
     inject_Z (- 2 ^ 63) <= F2Q v → F2Q v <= inject_Z (2 ^ 63 - 1) →
     is_Some (np_round_astype_int v))
  ∧ forecast_defects [2.5; 3.5; 2.75; -0.5]%float
    = [Some 2; Some 4; Some 3; Some 0]%Z.
Proof.
  split_and!.
  - intros (Hfin & -> & Hrange)%np_round_astype_int_Some.
    split; [done|]. split; [done|].
    split; [apply round_half_even_near|].
    split; [apply round_half_even_near|]. split_and!.
    + intros Hz. by rewrite (round_half_even_proper _ _ Hz),
        round_half_even_whole.
    + intros Hv. unfold round_half_even. cbv zeta.
      assert (Qfloor (F2Q v) = z) as -> by (apply Qfloor_unique; lra).
      destruct (Qcompare_spec (F2Q v - inject_Z z) (1 # 2)) as [H|H|H];
        [|lra..].
      destruct (Z.even z) eqn:Heven; [by auto|].
      split; [|by right]. by rewrite Z.even_add, Heven.
    + intros (_ & -> & _)%np_round_astype_int_Some Hvw.
      by apply round_half_even_mono.
  - intros Hfin Hlo Hhi. exists (round_half_even (F2Q v)).
    apply np_round_astype_int_Some. split; [done|]. split; [done|].
    apply round_half_even_mono in Hlo, Hhi.
    rewrite round_half_even_whole in Hlo, Hhi. lia.
  - reflexivity.
Qed.

(** X17. In binary64, for a series that is not empty and whose least and
    greatest value are whole numbers [a] and [b], with [window] times the
    larger of [|a|], [|b|] and 1 at most [2 ^ 53], every entry of the
    column [forecast_defects] computed from the [moving_average] branch
    is a whole number between [a] and [b]: neither the arithmetic nor
    the rounding takes a forecast out of the range of the data. *)
Theorem rounded_forecast_stays_in_range
    (window horizon : nat) (y : list float) (a b : Z) :
  y ≠ [] → (1 ≤ window)%nat →
  Forall (λ v, finite v = true) y →
  series_min (F2Q <$> y) == inject_Z a →
  series_max (F2Q <$> y) == inject_Z b →
  (Z.of_nat window * Z.max 1 (Z.max (Z.abs a) (Z.abs b)) <= 2 ^ 53)%Z →
  Forall (λ entry, ∃ d, entry = Some d ∧ (a <= d <= b)%Z)
         (forecast_defects (moving_average window horizon y)).
Proof.
  intros Hne Hw Hfin Hmin Hmax Hbound. unfold forecast_defects.
  apply Forall_fmap.
  pose proof (moving_average_values_between
                (series_min (F2Q <$> y)) (series_max (F2Q <$> y)) window Hw)
    as Hvalues.
  unfold moving_average. rewrite moving_average_loop_values. cbn [snd app].
  eapply Forall_impl; [apply Hvalues|].
  - nia.
  - intros j Hj. split.
    + apply (binary64_times a 0 j window); [|lia | nia | done].
      rewrite Hmin, bpow_0. ring.
    + apply (binary64_times b 0 j window); [|lia | nia | done].
      rewrite Hmax, bpow_0. ring.
  - done.
  - pose proof (series_within_min_max (F2Q <$> y)) as Hin.
    rewrite Forall_fmap in Hin.
    apply Forall_forall. intros v Hv.
    rewrite Forall_forall in Hfin, Hin.
    split; [by apply Hfin|]. by apply Hin.
  - intros v (Hf & Hlo & Hhi). cbn. rewrite Hmin in Hlo. rewrite Hmax in Hhi.
    apply round_half_even_mono in Hlo, Hhi.
    rewrite round_half_even_whole in Hlo, Hhi.
    exists (round_half_even (F2Q v)). split; [|done].
    apply np_round_astype_int_Some. split; [done|]. split; [done|].
    assert (2 ^ 53 < 2 ^ 63)%Z by reflexivity. nia.
Qed.

Lemma rounded_forecast_stays_in_range_witness :
  Forall (λ entry, ∃ d, entry = Some d ∧ (1 <= d <= 4)%Z)
         (forecast_defects (moving_average 2 3 [1; 4; 2]%float)).
Proof.
  apply (rounded_forecast_stays_in_range 2 3 [1; 4; 2]%float 1 4).
  - discriminate.
  - lia.
  - repeat constructor.
  - vm_compute. reflexivity.
  - vm_compute. reflexivity.
  - vm_compute. discriminate.
Defined.
